(** * The yvm Java heap ([src/runtime/JavaHeap.hpp])

    A shallow embedding of the handle arenas ([Container] and its three
    specialisations) and of the [JavaHeap] facade built on them, followed by
    the properties of the heap design that the code does or does not have. *)

From stdpp Require Import gmap strings list fin_maps sorting.

Local Open Scope N_scope.

(** ** Machine integers

    Handles and indices are [size_t].  The target is LP64, so [size_t] is an
    unsigned 64-bit integer whose arithmetic wraps around. *)

Definition SIZE_BITS : N := 64.
Definition SIZE_MAX : N := 2 ^ SIZE_BITS - 1.

(** [a + b] on [size_t]. *)
Definition size_add (a b : N) : N := (a + b) mod 2 ^ SIZE_BITS.

(** ** Outcomes

    The header never throws and never checks a handle or an index: where the
    C++ dereferences [end()], a null pointer or an out-of-range slot the
    behaviour is undefined.  [Throws] is what a typed failure would look like;
    no function embedded from the header builds it. *)

(** Modelled from the spec: the error taxonomy of its section 7.  The source
    declares no error type. *)
Inductive HeapError :=
  | NotFound
  | FieldNotFound
  | DescriptorMismatch
  | NoMonitor
  | InvalidReferenceKind.

Inductive outcome (A : Type) :=
  | Returns (a : A)
  | Throws (e : HeapError)
  | Undefined.
Arguments Returns {A} a.
Arguments Throws {A} e.
Arguments Undefined {A}.

#[global] Instance outcome_ret : MRet outcome := λ A a, Returns a.
#[global] Instance outcome_bind : MBind outcome := λ A B k x,
  match x with
  | Returns a => k a
  | Throws e => Throws e
  | Undefined => Undefined
  end.

(** ** [Container<Type>]: the handle arena

    [data] is a [std::map<size_t, Type>]: a finite map with unique keys. *)

Module Container.
Section arena.
Context {Type_ : Type}.
(** [Type{}], the value-initialised record. *)
Variable Type_default : Type_.

(** The largest key of the map: [(--data.end())->first]. *)
Definition lastKey (data : gmap N Type_) : N :=
  map_fold (λ k _ r, N.max k r) 0 data.

Definition empty (data : gmap N Type_) : bool := bool_decide (data = ∅).

(** [data.insert(make_pair(k, v))]: [std::map::insert] leaves the map
    unchanged when the key is already present. *)
Definition map_insert (k : N) (v : Type_) (data : gmap N Type_) : gmap N Type_ :=
  match data !! k with
  | Some _ => data
  | None => <[k := v]> data
  end.

(** The local [lastOffset] of [place], as it stands before the insertion. *)
Definition lastOffset (data : gmap N Type_) : N :=
  if empty data then 0 else lastKey data.

Definition place (data : gmap N Type_) : N * gmap N Type_ :=
  let lastOffset := lastOffset data in
  let data := map_insert (size_add lastOffset 1) Type_default data in
  (size_add lastOffset 1, data).

Definition has (data : gmap N Type_) (offset : N) : bool :=
  bool_decide (is_Some (data !! offset)).

Definition remove (data : gmap N Type_) (offset : N) : gmap N Type_ :=
  if has data offset then delete offset data else data.

(** [data.find(offset)->second]: dereferences [end()] when the key is
    absent. *)
Definition find (data : gmap N Type_) (offset : N) : outcome Type_ :=
  match data !! offset with
  | Some record => Returns record
  | None => Undefined
  end.
End arena.
End Container.

(** ** The three stores

    A [JType*] or [ObjectMonitor*] is an address on the C++ free store;
    [nullptr] is address 0. *)

Abbreviation JTypePtr := N (only parsing).
Definition nullptr : N := 0.

(** [using InternalObject = vector<JType*>]. *)
Abbreviation InternalObject := (list JTypePtr).

(** [using InternalArray = pair<size_t, JType**>]: the element count and the
    backing buffer.  The store owns the buffer exclusively (its destructor
    runs [delete[]] on the buffer of every record), so the buffer is kept by
    value inside the record; the value-initialised pair [(0, nullptr)] has no
    addressable element. *)
Abbreviation InternalArray := (N * list JTypePtr)%type.

(** [using InternalMonitor = ObjectMonitor*]. *)
Abbreviation InternalMonitor := N (only parsing).

Module ObjectContainer.
Definition place := Container.place ([] : InternalObject).
End ObjectContainer.

Module ArrayContainer.
Definition place := Container.place ((0, []) : InternalArray).
End ArrayContainer.

Module MonitorContainer.
(** The override of [place]; [monitor] is the pointer that
    [new ObjectMonitor()] returned. *)
Definition place (monitor : InternalMonitor) (data : gmap N InternalMonitor)
    : N * gmap N InternalMonitor :=
  let lastOffset := Container.lastOffset data in
  let data := Container.map_insert (size_add lastOffset 1) monitor data in
  (size_add lastOffset 1, data).
End MonitorContainer.

(** ** Sequences of arena operations *)

Module Arena.
Inductive op :=
  | Place
  | Remove (offset : N).

Section run.
Context {Type_ : Type}.
Variable Type_default : Type_.

Definition step (data : gmap N Type_) (o : op) : gmap N Type_ :=
  match o with
  | Place => (Container.place Type_default data).2
  | Remove offset => Container.remove data offset
  end.

Definition run (ops : list op) (data : gmap N Type_) : gmap N Type_ :=
  foldl step data ops.

(** The handles of the live records, one entry per record. *)
Definition liveHandles (data : gmap N Type_) : list N :=
  (map_to_list data).*1.

(** [k] is the largest handle live in [data]. *)
Definition largestLive (data : gmap N Type_) (k : N) : Prop :=
  is_Some (data !! k) ∧ ∀ j, is_Some (data !! j) → j ≤ k.
End run.

(** [r], the result of an allocation in [data], is the next handle after the
    largest live one, with [v] stored under it and nothing else changed. *)
Definition placedAsNext {Type_ : Type} (data : gmap N Type_)
    (r : N * gmap N Type_) (v : Type_) : Prop :=
  (data = ∅ → r.1 = 1) ∧
  (data ≠ ∅ → ∃ k, largestLive data k) ∧
  (∀ k, largestLive data k → r.1 = k + 1) ∧
  data !! r.1 = None ∧
  r.2 !! r.1 = Some v ∧
  (∀ j, j ≠ r.1 → r.2 !! j = data !! j).

(** Allocate, then drop the previous record, [n] times over: the single
    live handle climbs from 1 to [n + 1]. *)
Definition climb (n : N) : list op :=
  N.peano_rect (λ _, list op) [Place]
    (λ k ops, ops ++ [Place; Remove (k + 1)]) n.

(** [climb] up to [SIZE_MAX], then allocate once more. *)
Definition wrapAround : list op := climb (SIZE_MAX - 1) ++ [Place].
End Arena.

(** ** Class metadata and runtime values *)

(** Modelled from the spec: [JavaClass] is declared in a header that is not
    part of this file.  Section 6 of the spec gives what the heap reads from
    it: the ancestor chain in root-to-leaf order and, per class, the ordered
    list of declared (name, descriptor) pairs. *)
Record FieldInfo := { fieldName : string; fieldDescriptor : string }.

Inductive JavaClass :=
  | RootClass (className : string) (fields : list FieldInfo)
  | DerivedClass (superClass : JavaClass) (className : string)
      (fields : list FieldInfo).

#[global] Instance FieldInfo_eq_dec : EqDecision FieldInfo.
Proof. solve_decision. Defined.

#[global] Instance JavaClass_eq_dec : EqDecision JavaClass.
Proof. solve_decision. Defined.

Definition declaredFields (c : JavaClass) : list FieldInfo :=
  match c with
  | RootClass _ fields => fields
  | DerivedClass _ _ fields => fields
  end.

Definition fieldsCount (c : JavaClass) : N := N.of_nat (length (declaredFields c)).

(** Root first, the class itself last. *)
Fixpoint ancestorChain (c : JavaClass) : list JavaClass :=
  match c with
  | RootClass _ _ => [c]
  | DerivedClass superClass _ _ => ancestorChain superClass ++ [c]
  end.

Definition sumCounts (chain : list JavaClass) : N :=
  foldr (λ c n, fieldsCount c + n) 0 chain.

(** Modelled from the spec: [JType], [JObject] and [JArray] come from
    [JavaType.h], which is not part of this file.  The header reads
    [object->jc], [object.offset] and [array.offset]; the spec (section 9)
    describes a value as primitive, object reference or array reference. *)
Module JObject.
Record t := { jc : JavaClass; offset : N }.
End JObject.

Module JArray.
Record t := { offset : N }.
End JArray.

Inductive JType :=
  | Primitive (bits : Z)
  | ObjectRef (object : JObject.t)
  | ArrayRef (array : JArray.t).

(** [dynamic_cast<const JObject*>(ref)]: null for a null pointer and for a
    pointee that is not a [JObject].  A pointer that the facade dereferences
    is passed as its pointee, [None] standing for [nullptr]. *)
Definition dynamic_cast_JObject (ref : option JType) : option JObject.t :=
  match ref with
  | Some (ObjectRef object) => Some object
  | _ => None
  end.

(** ** [JavaHeap]: the facade

    Each member function holds its store's mutex from entry to exit, so a
    call is one atomic step on the heap state; the mutexes carry no other
    state. *)

Record JavaHeap := {
  objectContainer : gmap N InternalObject;
  arrayContainer : gmap N InternalArray;
  monitorContainer : gmap N InternalMonitor
}.

Definition emptyHeap : JavaHeap :=
  {| objectContainer := ∅; arrayContainer := ∅; monitorContainer := ∅ |}.

Definition set_objectContainer (heap : JavaHeap) (oc : gmap N InternalObject) : JavaHeap :=
  {| objectContainer := oc;
     arrayContainer := arrayContainer heap;
     monitorContainer := monitorContainer heap |}.

Definition set_arrayContainer (heap : JavaHeap) (ac : gmap N InternalArray) : JavaHeap :=
  {| objectContainer := objectContainer heap;
     arrayContainer := ac;
     monitorContainer := monitorContainer heap |}.

Definition set_monitorContainer (heap : JavaHeap) (mc : gmap N InternalMonitor) : JavaHeap :=
  {| objectContainer := objectContainer heap;
     arrayContainer := arrayContainer heap;
     monitorContainer := mc |}.

(** [objectContainer.find(object.offset)[fieldOffset] = value]:
    [vector::operator[]] is unchecked. *)
Definition putFieldByOffset (heap : JavaHeap) (object : JObject.t)
    (fieldOffset : N) (value : JTypePtr) : outcome JavaHeap :=
  fields ← Container.find (objectContainer heap) (JObject.offset object);
  if decide (fieldOffset < N.of_nat (length fields)) then
    Returns (set_objectContainer heap
      (<[JObject.offset object := <[N.to_nat fieldOffset := value]> fields]>
         (objectContainer heap)))
  else Undefined.

Definition getFieldByOffset (heap : JavaHeap) (object : JObject.t)
    (fieldOffset : N) : outcome JTypePtr :=
  fields ← Container.find (objectContainer heap) (JObject.offset object);
  match fields !! N.to_nat fieldOffset with
  | Some value => Returns value
  | None => Undefined
  end.

Definition getFields (heap : JavaHeap) (object : JObject.t) : outcome InternalObject :=
  Container.find (objectContainer heap) (JObject.offset object).

(** [arrayContainer.find(array.offset).second[index] = value]: indexing a
    raw [JType**]. *)
Definition putElement (heap : JavaHeap) (array : JArray.t) (index : N)
    (value : JTypePtr) : outcome JavaHeap :=
  record ← Container.find (arrayContainer heap) (JArray.offset array);
  if decide (index < N.of_nat (length record.2)) then
    Returns (set_arrayContainer heap
      (<[JArray.offset array := (record.1, <[N.to_nat index := value]> record.2)]>
         (arrayContainer heap)))
  else Undefined.

Definition getElement (heap : JavaHeap) (array : JArray.t) (index : N)
    : outcome JTypePtr :=
  record ← Container.find (arrayContainer heap) (JArray.offset array);
  match record.2 !! N.to_nat index with
  | Some value => Returns value
  | None => Undefined
  end.

Definition getElements (heap : JavaHeap) (array : JArray.t) : outcome InternalArray :=
  Container.find (arrayContainer heap) (JArray.offset array).

Definition removeArray (heap : JavaHeap) (offset : N) : JavaHeap :=
  set_arrayContainer heap (Container.remove (arrayContainer heap) offset).

Definition removeObject (heap : JavaHeap) (offset : N) : JavaHeap :=
  set_objectContainer heap (Container.remove (objectContainer heap) offset).

(** [monitorContainer.has(dynamic_cast<const JObject*>(ref)->offset)]. *)
Definition hasMonitor (heap : JavaHeap) (ref : option JType) : outcome bool :=
  match dynamic_cast_JObject ref with
  | Some object => Returns (Container.has (monitorContainer heap) (JObject.offset object))
  | None => Undefined
  end.

(** [createMonitor()] takes no argument; [monitor] is the pointer that the
    [new ObjectMonitor()] inside [MonitorContainer::place] returned. *)
Definition createMonitor (heap : JavaHeap) (monitor : InternalMonitor) : N * JavaHeap :=
  let r := MonitorContainer.place monitor (monitorContainer heap) in
  (r.1, set_monitorContainer heap r.2).

Definition findMonitor (heap : JavaHeap) (ref : option JType) : outcome InternalMonitor :=
  match dynamic_cast_JObject ref with
  | Some object => Container.find (monitorContainer heap) (JObject.offset object)
  | None => Undefined
  end.

(** ** Instance creation and name-based field resolution

    [createObject], [createSuperFields], [getFieldByNameImpl] and
    [putFieldByNameImpl] are only declared in the header. *)

Section layout.
(** The initial value of a field slot: the value representation is external
    to the heap. *)
Variable defaultValue : FieldInfo → JTypePtr.

(** Write the initial values of [fields] into the slots from [base] on. *)
Definition initOwnFields (fields : list FieldInfo) (base : N)
    (slots : InternalObject) : InternalObject :=
  foldl (λ acc jf, <[N.to_nat (base + N.of_nat jf.1) := defaultValue jf.2]> acc)
    slots (imap pair fields).

(** Modelled from the spec: the body of [createSuperFields] is missing.
    Section 4.5: "recursively initialize superclass-contributed slots before
    the class's own slots (ancestors are initialized first so their slots
    occupy the low indices)". *)
Fixpoint createSuperFields (javaClass : JavaClass) (slots : InternalObject)
    : InternalObject :=
  match javaClass with
  | RootClass _ fields => initOwnFields fields 0 slots
  | DerivedClass superClass _ fields =>
      initOwnFields fields (sumCounts (ancestorChain superClass))
        (createSuperFields superClass slots)
  end.

(** Modelled from the spec: the body of [createObject] is missing.
    Section 4.5: "compute the instance's total field-slot count by summing
    declared-field counts across the full ancestor chain (root-first),
    allocate an Object Store record of exactly that length, then recursively
    initialize [...]. Returns a reference value wrapping the new handle." *)
Definition createObject (heap : JavaHeap) (javaClass : JavaClass)
    : JObject.t * JavaHeap :=
  let total := sumCounts (ancestorChain javaClass) in
  let r := ObjectContainer.place (objectContainer heap) in
  let slots := createSuperFields javaClass (replicate (N.to_nat total) nullptr) in
  ({| JObject.jc := javaClass; JObject.offset := r.1 |},
   set_objectContainer heap (<[r.1 := slots]> r.2)).
End layout.

(** Modelled from the spec: how a field is found in a class's own list.
    Section 4.5: "find the field matching (name, descriptor) by declaration
    order"; "[DescriptorMismatch] if a name match exists but the descriptor
    differs", [FieldNotFound] otherwise. *)
Definition localIndex (fields : list FieldInfo) (name descriptor : string)
    : outcome N :=
  match list_find (λ f, fieldName f = name ∧ fieldDescriptor f = descriptor) fields with
  | Some (i, _) => Returns (N.of_nat i)
  | None =>
      if bool_decide (Exists (λ f, fieldName f = name) fields)
      then Throws DescriptorMismatch
      else Throws FieldNotFound
  end.

(** Modelled from the spec: the slot index that the missing bodies of
    [getFieldByNameImpl] and [putFieldByNameImpl] compute.  Section 4.5:
    "walk the ancestor chain of the instance's actual class to find where
    declaringClass's own fields begin in the flat layout (the sum of field
    counts of all of its ancestors), then [...] add its local index to the
    base. Fails with [FieldNotFound] if no ancestor matches". *)
Fixpoint resolveInChain (desireLookup : JavaClass) (chain : list JavaClass)
    (name descriptor : string) (offset : N) : outcome N :=
  match chain with
  | [] => Throws FieldNotFound
  | c :: rest =>
      if decide (c = desireLookup) then
        i ← localIndex (declaredFields c) name descriptor;
        Returns (offset + i)
      else resolveInChain desireLookup rest name descriptor (offset + fieldsCount c)
  end.

Definition resolveField (desireLookup currentLookup : JavaClass)
    (name descriptor : string) (offset : N) : outcome N :=
  resolveInChain desireLookup (ancestorChain currentLookup) name descriptor offset.

(** Modelled from the spec: [getFieldByNameImpl] reads the resolved slot. *)
Definition getFieldByNameImpl (heap : JavaHeap) (desireLookup currentLookup : JavaClass)
    (name descriptor : string) (object : JObject.t) (offset : N) : outcome JTypePtr :=
  i ← resolveField desireLookup currentLookup name descriptor offset;
  getFieldByOffset heap object i.

(** Modelled from the spec: [putFieldByNameImpl] writes the resolved slot. *)
Definition putFieldByNameImpl (heap : JavaHeap) (desireLookup currentLookup : JavaClass)
    (name descriptor : string) (object : JObject.t) (value : JTypePtr) (offset : N)
    : outcome JavaHeap :=
  i ← resolveField desireLookup currentLookup name descriptor offset;
  putFieldByOffset heap object i value.

Definition getFieldByName (heap : JavaHeap) (jc : JavaClass) (name descriptor : string)
    (object : JObject.t) : outcome JTypePtr :=
  getFieldByNameImpl heap jc (JObject.jc object) name descriptor object 0.

Definition putFieldByName (heap : JavaHeap) (jc : JavaClass) (name descriptor : string)
    (object : JObject.t) (value : JTypePtr) : outcome JavaHeap :=
  putFieldByNameImpl heap jc (JObject.jc object) name descriptor object value 0.

(** The first slot of the [i]-th class of a chain. *)
Definition baseOf (chain : list JavaClass) (i : nat) : N := sumCounts (take i chain).

(** ** Sequences of facade calls

    The state-changing members whose bodies the header gives, and the
    collector's direct [monitorContainer.remove] ([ConcurrentGC] is a friend;
    the facade itself offers no monitor removal). *)

Inductive HeapOp :=
  | PutFieldByOffset (object : JObject.t) (fieldOffset : N) (value : JTypePtr)
  | PutElement (array : JArray.t) (index : N) (value : JTypePtr)
  | RemoveArray (offset : N)
  | RemoveObject (offset : N)
  | CreateMonitor (monitor : InternalMonitor)
  | CollectMonitor (offset : N).

Definition exec (heap : JavaHeap) (o : HeapOp) : outcome JavaHeap :=
  match o with
  | PutFieldByOffset object fieldOffset value => putFieldByOffset heap object fieldOffset value
  | PutElement array index value => putElement heap array index value
  | RemoveArray offset => Returns (removeArray heap offset)
  | RemoveObject offset => Returns (removeObject heap offset)
  | CreateMonitor monitor => Returns (createMonitor heap monitor).2
  | CollectMonitor offset =>
      Returns (set_monitorContainer heap (Container.remove (monitorContainer heap) offset))
  end.

Fixpoint execAll (heap : JavaHeap) (ops : list HeapOp) : outcome JavaHeap :=
  match ops with
  | [] => Returns heap
  | o :: rest => heap' ← exec heap o; execAll heap' rest
  end.

(** ** Ownership of slot values

    [cells] is the set of addresses of the [JType] objects currently allocated
    on the free store; [delete ptr] takes [ptr] out of it. *)

Definition delete_ptr (cells : gset N) (ptr : JTypePtr) : gset N := cells ∖ {[ptr]}.

(** [~ObjectContainer]: [delete] every slot value of every record. *)
Definition ObjectContainer_dtor (data : gmap N InternalObject) (cells : gset N) : gset N :=
  map_fold (λ _ record cells, foldl delete_ptr cells record) cells data.

(** [~ArrayContainer]: [delete] the first [first] elements of every buffer
    (and then the buffer, which is no [JType] cell). *)
Definition ArrayContainer_dtor (data : gmap N InternalArray) (cells : gset N) : gset N :=
  map_fold (λ _ record cells, foldl delete_ptr cells (take (N.to_nat record.1) record.2))
    cells data.

(** What [data.erase(offset)] inside [Container::remove] releases: it runs
    the destructor of the erased record.  [~vector<JType*>] gives back the
    vector's own storage and [~pair<size_t, JType**>] nothing; neither
    [delete]s a slot value, so the [JType] cells stay as they are. *)
Definition removeObject_cells (heap : JavaHeap) (cells : gset N) (offset : N)
    : JavaHeap * gset N :=
  (removeObject heap offset, cells).

Definition removeArray_cells (heap : JavaHeap) (cells : gset N) (offset : N)
    : JavaHeap * gset N :=
  (removeArray heap offset, cells).

(** ** Teardown with [delete] checked

    [delete ptr] does nothing for a null pointer and releases the cell of an
    allocated one; a [delete] of a pointer whose cell is not allocated (a
    second [delete] of the same pointer) is undefined. *)

Definition delete_checked (cells : gset N) (ptr : JTypePtr) : outcome (gset N) :=
  if decide (ptr = nullptr) then Returns cells
  else if decide (ptr ∈ cells) then Returns (cells ∖ {[ptr]})
  else Undefined.

Fixpoint delete_each (ptrs : list JTypePtr) (cells : gset N) : outcome (gset N) :=
  match ptrs with
  | [] => Returns cells
  | ptr :: rest => cells' ← delete_checked cells ptr; delete_each rest cells'
  end.

(** The range-for over a [std::map] visits the entries in ascending key
    order. *)
Definition keyLe {Type_ : Type} (a b : N * Type_) : Prop := a.1 ≤ b.1.

#[global] Instance keyLe_dec {Type_ : Type} : RelDecision (@keyLe Type_).
Proof. intros a b. unfold keyLe. apply _. Defined.

Definition entries {Type_ : Type} (data : gmap N Type_) : list (N * Type_) :=
  merge_sort keyLe (map_to_list data).

Fixpoint destroy_each {Type_ : Type} (release : Type_ → gset N → outcome (gset N))
    (records : list (N * Type_)) (cells : gset N) : outcome (gset N) :=
  match records with
  | [] => Returns cells
  | record :: rest => cells' ← release record.2 cells; destroy_each release rest cells'
  end.

(** [~ObjectContainer]: [for (auto ptr : intVecPair.second) delete ptr;] for
    every entry. *)
Definition ObjectContainer_teardown (data : gmap N InternalObject) (cells : gset N)
    : outcome (gset N) :=
  destroy_each delete_each (entries data) cells.

(** The body of the loop of [~ArrayContainer] for one entry:
    [delete second[i]] for [i < first], which reads past the buffer when
    [first] exceeds its length, then [delete[] second] (the buffer is no
    [JType] cell). *)
Definition InternalArray_release (record : InternalArray) (cells : gset N)
    : outcome (gset N) :=
  if decide (record.1 ≤ N.of_nat (length record.2))
  then delete_each (take (N.to_nat record.1) record.2) cells
  else Undefined.

Definition ArrayContainer_teardown (data : gmap N InternalArray) (cells : gset N)
    : outcome (gset N) :=
  destroy_each InternalArray_release (entries data) cells.

(** [~MonitorContainer]: [delete intMonitorPair.second] for every entry. *)
Definition MonitorContainer_teardown (data : gmap N InternalMonitor) (cells : gset N)
    : outcome (gset N) :=
  destroy_each (λ monitor cells, delete_checked cells monitor) (entries data) cells.

(** The pointers that [~ObjectContainer] passes to [delete], in order. *)
Definition slotPointers (data : gmap N InternalObject) : list JTypePtr :=
  mjoin (entries data).*2.

(** The pointers that [~ArrayContainer] passes to [delete], in order. *)
Definition elementPointers (data : gmap N InternalArray) : list JTypePtr :=
  mjoin ((λ entry, take (N.to_nat entry.2.1) entry.2.2) <$> entries data).

(** The pointers that [~MonitorContainer] passes to [delete], in order. *)
Definition monitorPointers (data : gmap N InternalMonitor) : list N :=
  (entries data).*2.

Definition nonNull (ptrs : list JTypePtr) : list JTypePtr :=
  filter (λ ptr, ptr ≠ nullptr) ptrs.

(** ** The store an operation works on *)

Inductive Store :=
  | ObjectStore
  | ArrayStore
  | MonitorStore.

Definition storeOf (o : HeapOp) : Store :=
  match o with
  | PutFieldByOffset _ _ _ | RemoveObject _ => ObjectStore
  | PutElement _ _ _ | RemoveArray _ => ArrayStore
  | CreateMonitor _ | CollectMonitor _ => MonitorStore
  end.

#[global] Instance Store_eq_dec : EqDecision Store.
Proof. solve_decision. Defined.

(** The number of operations of a run, as a [size_t]-sized count. *)
Definition opCount (ops : list Arena.op) : N := N.of_nat (length ops).

(** * Properties *)

(** ** Arithmetic on [size_t] *)

Lemma size_add_small (a : N) : a < SIZE_MAX → size_add a 1 = a + 1.
Proof.
  intros Ha. unfold size_add. apply N.mod_small.
  unfold SIZE_MAX in Ha. lia.
Qed.

Lemma size_add_wrap : size_add SIZE_MAX 1 = 0.
Proof. reflexivity. Qed.

(** ** The largest key *)

Section arena_facts.
Context {Type_ : Type}.
Implicit Types (data : gmap N Type_) (k offset : N).

Lemma lastKey_spec data :
  (∀ k, is_Some (data !! k) → k ≤ Container.lastKey data) ∧
  (data = ∅ ∧ Container.lastKey data = 0 ∨ is_Some (data !! Container.lastKey data)).
Proof.
  unfold Container.lastKey.
  apply (map_fold_weak_ind (λ r m,
    (∀ k, is_Some (m !! k) → k ≤ r) ∧ (m = ∅ ∧ r = 0 ∨ is_Some (m !! r)))).
  - split; [|by left]. intros k [x Hx]. by rewrite lookup_empty in Hx.
  - intros i x m r Hi [Hle Hmax]. split.
    + intros k. rewrite lookup_insert_is_Some. intros [<-|[_ Hk]]; [lia|].
      specialize (Hle k Hk). lia.
    + right. rewrite lookup_insert_is_Some.
      destruct (N.max_spec i r) as [[Hlt ->]|[Hge ->]]; [|by left].
      destruct Hmax as [[-> ->]|Hr]; [lia|].
      right. split; [lia|done].
Qed.

Lemma lastOffset_upper data k : is_Some (data !! k) → k ≤ Container.lastOffset data.
Proof.
  intros Hk. unfold Container.lastOffset, Container.empty.
  case_bool_decide as He.
  - subst. destruct Hk as [x Hx]. by rewrite lookup_empty in Hx.
  - by apply lastKey_spec.
Qed.

Lemma lastOffset_empty : Container.lastOffset (∅ : gmap N Type_) = 0.
Proof. reflexivity. Qed.

Lemma lastOffset_live data : data ≠ ∅ → is_Some (data !! Container.lastOffset data).
Proof.
  intros Hne. unfold Container.lastOffset, Container.empty.
  rewrite bool_decide_eq_false_2 by done.
  destruct (lastKey_spec data) as [_ [[? _]|?]]; done.
Qed.

Lemma lastOffset_largest data :
  data ≠ ∅ → Arena.largestLive data (Container.lastOffset data).
Proof.
  intros Hne. split; [by apply lastOffset_live|]. intros j. apply lastOffset_upper.
Qed.

Lemma largestLive_unique data k :
  Arena.largestLive data k → k = Container.lastOffset data.
Proof.
  intros [Hk Hmax].
  assert (data ≠ ∅) as Hne.
  { intros ->. destruct Hk as [x Hx]. by rewrite lookup_empty in Hx. }
  pose proof (lastOffset_upper _ _ Hk).
  pose proof (Hmax _ (lastOffset_live _ Hne)). lia.
Qed.

Lemma lastOffset_singleton k (x : Type_) : Container.lastOffset ({[k := x]} : gmap N Type_) = k.
Proof.
  symmetry. apply largestLive_unique. split.
  - rewrite lookup_singleton_eq. eauto.
  - intros j [y Hy]. apply lookup_singleton_Some in Hy as [-> _]. lia.
Qed.

Lemma has_true data offset : Container.has data offset = true ↔ is_Some (data !! offset).
Proof. unfold Container.has. apply bool_decide_eq_true. Qed.

Lemma has_false data offset : Container.has data offset = false ↔ data !! offset = None.
Proof.
  unfold Container.has. rewrite bool_decide_eq_false. by rewrite eq_None_not_Some.
Qed.

Lemma remove_delete data offset : Container.remove data offset = delete offset data.
Proof.
  unfold Container.remove. destruct (Container.has data offset) eqn:Hh; [done|].
  apply has_false in Hh. by rewrite delete_id.
Qed.

Lemma map_insert_lookup_eq k (v : Type_) data :
  data !! k = None → Container.map_insert k v data = <[k := v]> data.
Proof. intros H. unfold Container.map_insert. by rewrite H. Qed.

Lemma map_insert_live k (v : Type_) data : is_Some (Container.map_insert k v data !! k).
Proof.
  unfold Container.map_insert. destruct (data !! k) eqn:Hk.
  - rewrite Hk. eauto.
  - rewrite lookup_insert_eq. eauto.
Qed.

Lemma map_insert_keeps k (v : Type_) data j x :
  data !! j = Some x → Container.map_insert k v data !! j = Some x.
Proof.
  intros Hj. unfold Container.map_insert. destruct (data !! k) eqn:Hk; [done|].
  rewrite lookup_insert_ne; [done|]. intros ->. congruence.
Qed.

(** Below [SIZE_MAX] the next offset is free. *)
Lemma next_offset_free data :
  (∀ j, is_Some (data !! j) → j < SIZE_MAX) →
  size_add (Container.lastOffset data) 1 = Container.lastOffset data + 1 ∧
  data !! (Container.lastOffset data + 1) = None.
Proof.
  intros Hb. split.
  - apply size_add_small. destruct (decide (data = ∅)) as [->|Hne].
    + rewrite lastOffset_empty. reflexivity.
    + apply Hb. by apply lastOffset_live.
  - apply eq_None_not_Some. intros Hk%lastOffset_upper. lia.
Qed.
End arena_facts.

Example place_empty :
  ObjectContainer.place ∅ = (1, {[1 := []]}).
Proof. by vm_compute. Qed.

Example place_after_removing_largest :
  let data : gmap N InternalObject := {[1 := [4]; 2 := [5]; 3 := [6]]} in
  ObjectContainer.place (Container.remove data 3) = (3, <[3 := []]> {[1 := [4]; 2 := [5]]}) ∧
  ObjectContainer.place (Container.remove data 2) = (4, <[4 := []]> {[1 := [4]; 3 := [6]]}).
Proof. cbn zeta. split; by vm_compute. Qed.

Example remove_absent :
  Container.remove ({[1 := [4]]} : gmap N InternalObject) 2 = {[1 := [4]]}.
Proof. by vm_compute. Qed.

(** ** Runs of arena operations *)

Section run_facts.
Context {Type_ : Type}.
Variable d : Type_.
Implicit Types (data : gmap N Type_) (ops : list Arena.op).

Lemma run_app ops1 ops2 data :
  Arena.run d (ops1 ++ ops2) data = Arena.run d ops2 (Arena.run d ops1 data).
Proof. unfold Arena.run. apply foldl_app. Qed.

(** Every handle up to [SIZE_MAX] can be made the only live one. *)
Lemma run_climb (n : N) :
  n + 1 ≤ SIZE_MAX → Arena.run d (Arena.climb n) ∅ = {[n + 1 := d]}.
Proof.
  induction n as [|n IH] using N.peano_ind; intros Hn.
  - reflexivity.
  - unfold Arena.climb. rewrite N.peano_rect_succ. fold (Arena.climb n).
    rewrite run_app, IH by lia.
    unfold Arena.run. simpl foldl.
    rewrite lastOffset_singleton, size_add_small by lia.
    rewrite map_insert_lookup_eq by (apply lookup_singleton_ne; lia).
    rewrite remove_delete, delete_insert_ne by lia.
    rewrite delete_singleton_eq.
    replace (N.succ n + 1) with (n + 1 + 1) by lia.
    apply insert_empty.
Qed.

Lemma run_exhaust : Arena.run d (Arena.climb (SIZE_MAX - 1)) ∅ = {[SIZE_MAX := d]}.
Proof. by rewrite run_climb. Qed.

Lemma run_wrapAround : Arena.run d Arena.wrapAround ∅ = <[0 := d]> {[SIZE_MAX := d]}.
Proof.
  unfold Arena.wrapAround. rewrite run_app, run_exhaust.
  unfold Arena.run. simpl foldl.
  rewrite lastOffset_singleton, size_add_wrap.
  by rewrite map_insert_lookup_eq.
Qed.

(** Every handle of a store built by [place] and [remove] is a [size_t]. *)
Lemma run_bounded ops data :
  (∀ j, is_Some (data !! j) → j ≤ SIZE_MAX) →
  ∀ j, is_Some (Arena.run d ops data !! j) → j ≤ SIZE_MAX.
Proof.
  revert data. induction ops as [|o ops IH]; intros data Hb; [done|].
  cbn. apply IH. intros j. destruct o as [|offset]; cbn.
  - unfold Container.map_insert.
    destruct (data !! size_add _ 1) eqn:Hl; [apply Hb|].
    rewrite lookup_insert_is_Some. intros [<-|[_ Hj]]; [|by apply Hb].
    unfold size_add. pose proof (N.mod_upper_bound (Container.lastOffset data + 1) (2 ^ SIZE_BITS)).
    unfold SIZE_MAX. lia.
  - rewrite remove_delete, lookup_delete_is_Some. intros [_ Hj]. by apply Hb.
Qed.

Lemma place_live_iff data :
  (∀ j, is_Some (data !! j) → j ≤ SIZE_MAX) →
  Container.has data (Container.place d data).1 = true ↔
  Container.has data SIZE_MAX = true ∧ Container.has data 0 = true.
Proof.
  intros Hb. cbn. rewrite !has_true. split.
  - intros Hh.
    assert (data ≠ ∅) as Hne.
    { intros ->. destruct Hh as [x Hx]. by rewrite lookup_empty in Hx. }
    pose proof (lastOffset_live _ Hne) as Hlive.
    pose proof (Hb _ Hlive) as Hle.
    destruct (decide (Container.lastOffset data = SIZE_MAX)) as [Heq|Hlt].
    + rewrite Heq in *. by rewrite size_add_wrap in Hh.
    + rewrite size_add_small in Hh by lia.
      apply lastOffset_upper in Hh. lia.
  - intros [Hmax Hzero].
    pose proof (lastOffset_upper _ _ Hmax) as Hge.
    assert (data ≠ ∅) as Hne.
    { intros ->. destruct Hmax as [x Hx]. by rewrite lookup_empty in Hx. }
    pose proof (Hb _ (lastOffset_live _ Hne)) as Hle.
    replace (Container.lastOffset data) with SIZE_MAX by lia.
    by rewrite size_add_wrap.
Qed.

(** What [place] does while the handle space is not exhausted, for the
    inserted value [v]. *)
Lemma place_next (v : Type_) data :
  Container.lastOffset data < SIZE_MAX →
  Arena.placedAsNext data (Container.place v data) v.
Proof.
  intros Hlt. unfold Arena.placedAsNext. cbn.
  rewrite (size_add_small _ Hlt).
  assert (data !! (Container.lastOffset data + 1) = None) as Hfree.
  { apply eq_None_not_Some. intros Hk%lastOffset_upper. lia. }
  rewrite (map_insert_lookup_eq _ _ _ Hfree).
  split_and!.
  - by intros ->.
  - intros Hne. eexists. by apply lastOffset_largest.
  - by intros k ->%largestLive_unique.
  - done.
  - apply lookup_insert_eq.
  - intros j Hj. by rewrite lookup_insert_ne.
Qed.
End run_facts.

(** ** Handle assignment *)

(** C1, as stated, fails once handle [SIZE_MAX] is live: in the object store
    whose only record has handle [SIZE_MAX] (a store that [place] and
    [remove] can build), [place] returns 0, not one more than the largest
    live handle. *)
Lemma place_wraps_at_SIZE_MAX :
  let data : gmap N InternalObject := {[SIZE_MAX := []]} in
  Arena.run [] (Arena.climb (SIZE_MAX - 1)) ∅ = data ∧
  Arena.largestLive data SIZE_MAX ∧
  (ObjectContainer.place data).1 = 0 ∧
  (ObjectContainer.place data).1 ≠ SIZE_MAX + 1.
Proof.
  cbn zeta. split_and!.
  - apply run_exhaust.
  - rewrite <- (lastOffset_singleton SIZE_MAX ([] : InternalObject)) at 2.
    by apply lastOffset_largest, insert_non_empty.
  - unfold ObjectContainer.place, Container.place, fst.
    by rewrite lastOffset_singleton.
  - unfold ObjectContainer.place, Container.place, fst.
    by rewrite lastOffset_singleton.
Qed.

(** C1, amended: in every store whose largest live handle (0 when the store
    is empty) is below [SIZE_MAX], [Container::place] and
    [MonitorContainer::place] return one more than the largest live handle,
    1 for the empty store, and store the new record under exactly that
    handle, which was free, leaving every other entry as it was. *)
Theorem place_assigns_next_handle :
  (∀ (Type_ : Type) (Type_default : Type_) (data : gmap N Type_),
     Container.lastOffset data < SIZE_MAX →
     Arena.placedAsNext data (Container.place Type_default data) Type_default) ∧
  (∀ (monitor : InternalMonitor) (data : gmap N InternalMonitor),
     Container.lastOffset data < SIZE_MAX →
     Arena.placedAsNext data (MonitorContainer.place monitor data) monitor).
Proof.
  split.
  - intros Type_ Type_default data. apply place_next.
  - intros monitor data. apply (place_next monitor data).
Qed.

Lemma place_assigns_next_handle_witness :
  (Container.lastOffset ({[1 := [5]; 2 := []]} : gmap N InternalObject) < SIZE_MAX ∧
   Arena.placedAsNext ({[1 := [5]; 2 := []]} : gmap N InternalObject)
     (Container.place [] {[1 := [5]; 2 := []]}) []) ∧
  (Container.lastOffset (∅ : gmap N InternalMonitor) < SIZE_MAX ∧
   Arena.placedAsNext (∅ : gmap N InternalMonitor) (MonitorContainer.place 9 ∅) 9).
Proof.
  split; split.
  - vm_compute. reflexivity.
  - apply (proj1 place_assigns_next_handle). vm_compute. reflexivity.
  - vm_compute. reflexivity.
  - apply (proj2 place_assigns_next_handle). vm_compute. reflexivity.
Defined.

(** ** Handle uniqueness *)

(** C2, as stated, fails after the handle space has wrapped around: after the
    sequence [wrapAround], handles 0 and [SIZE_MAX] are live and the next
    [place] returns 0, the handle of a live record. *)
Lemma place_returns_live_handle_after_wrap :
  let data : gmap N InternalObject := Arena.run [] Arena.wrapAround ∅ in
  Container.has data (Container.place [] data).1 = true.
Proof.
  cbn zeta. rewrite run_wrapAround. apply place_live_iff.
  - intros j. rewrite lookup_insert_is_Some. intros [<-|[_ [x Hx]]]; [done|].
    by apply lookup_singleton_Some in Hx as [<- _].
  - rewrite !has_true, lookup_insert_eq, lookup_insert_ne, lookup_singleton_eq by done.
    eauto.
Qed.

(** C2, amended: after every sequence of [place] and [remove] on one store,
    starting from the empty store, no two live records share a handle; and
    the handle that the next [place] returns is that of a live record only
    when both [SIZE_MAX] and 0 are live, that is only after the handle
    arithmetic has wrapped around. *)
Theorem handles_unique_while_live (Type_ : Type) (Type_default : Type_)
    (ops : list Arena.op) :
  let data := Arena.run Type_default ops ∅ in
  NoDup (Arena.liveHandles data) ∧
  (Container.has data (Container.place Type_default data).1 = true ↔
   Container.has data SIZE_MAX = true ∧ Container.has data 0 = true).
Proof.
  cbn zeta. split.
  - apply NoDup_fst_map_to_list.
  - apply place_live_iff, run_bounded.
    intros j [x Hx]. by rewrite lookup_empty in Hx.
Qed.

(** ** Access by offset *)

Section offset_facts.
Implicit Types (heap : JavaHeap) (object : JObject.t) (array : JArray.t).

Lemma find_Some {Type_ : Type} (data : gmap N Type_) offset record :
  data !! offset = Some record → Container.find data offset = Returns record.
Proof. intros H. unfold Container.find. by rewrite H. Qed.

Lemma find_None {Type_ : Type} (data : gmap N Type_) offset :
  data !! offset = None → Container.find data offset = Undefined.
Proof. intros H. unfold Container.find. by rewrite H. Qed.

Lemma putFieldByOffset_Returns heap object fields fieldOffset value :
  objectContainer heap !! JObject.offset object = Some fields →
  fieldOffset < N.of_nat (length fields) →
  putFieldByOffset heap object fieldOffset value =
    Returns (set_objectContainer heap
      (<[JObject.offset object := <[N.to_nat fieldOffset := value]> fields]>
         (objectContainer heap))).
Proof.
  intros Hlive Hlt. unfold putFieldByOffset.
  rewrite (find_Some _ _ _ Hlive). cbn. by rewrite decide_True.
Qed.

Lemma putElement_Returns heap array record index value :
  arrayContainer heap !! JArray.offset array = Some record →
  index < N.of_nat (length record.2) →
  putElement heap array index value =
    Returns (set_arrayContainer heap
      (<[JArray.offset array := (record.1, <[N.to_nat index := value]> record.2)]>
         (arrayContainer heap))).
Proof.
  intros Hlive Hlt. unfold putElement.
  rewrite (find_Some _ _ _ Hlive). cbn. by rewrite decide_True.
Qed.

Lemma getFieldByOffset_lookup heap object fields fieldOffset :
  objectContainer heap !! JObject.offset object = Some fields →
  getFieldByOffset heap object fieldOffset =
    match fields !! N.to_nat fieldOffset with
    | Some value => Returns value
    | None => Undefined
    end.
Proof. intros Hlive. unfold getFieldByOffset. by rewrite (find_Some _ _ _ Hlive). Qed.

Lemma getElement_lookup heap array record index :
  arrayContainer heap !! JArray.offset array = Some record →
  getElement heap array index =
    match record.2 !! N.to_nat index with
    | Some value => Returns value
    | None => Undefined
    end.
Proof. intros Hlive. unfold getElement. by rewrite (find_Some _ _ _ Hlive). Qed.
End offset_facts.

(** C4: for a live object handle and a slot index below the record's slot
    count, [putFieldByOffset] returns and a following [getFieldByOffset] of
    the same handle and index returns the value written; likewise
    [putElement] and [getElement] for a live array handle and an index below
    the length of its element buffer. *)
Theorem write_then_read_by_offset (heap : JavaHeap) :
  (∀ (object : JObject.t) (fields : InternalObject) (fieldOffset : N) (value : JTypePtr),
     objectContainer heap !! JObject.offset object = Some fields →
     fieldOffset < N.of_nat (length fields) →
     ∃ heap', putFieldByOffset heap object fieldOffset value = Returns heap' ∧
              getFieldByOffset heap' object fieldOffset = Returns value) ∧
  (∀ (array : JArray.t) (record : InternalArray) (index : N) (value : JTypePtr),
     arrayContainer heap !! JArray.offset array = Some record →
     index < N.of_nat (length record.2) →
     ∃ heap', putElement heap array index value = Returns heap' ∧
              getElement heap' array index = Returns value).
Proof.
  split.
  - intros object fields fieldOffset value Hlive Hlt.
    eexists. split; [by eapply putFieldByOffset_Returns|].
    erewrite getFieldByOffset_lookup by apply lookup_insert_eq.
    rewrite list_lookup_insert_eq; [done|lia].
  - intros array record index value Hlive Hlt.
    eexists. split; [by eapply putElement_Returns|].
    erewrite getElement_lookup by apply lookup_insert_eq.
    cbn. rewrite list_lookup_insert_eq; [done|lia].
Qed.

Lemma write_then_read_by_offset_witness :
  let heap := {| objectContainer := {[1 := [10; 11]]};
                 arrayContainer := {[1 := (3, [20; 21; 22])]};
                 monitorContainer := ∅ |} in
  (∃ heap', putFieldByOffset heap {| JObject.jc := RootClass "A" []; JObject.offset := 1 |} 1 42
              = Returns heap' ∧
            getFieldByOffset heap' {| JObject.jc := RootClass "A" []; JObject.offset := 1 |} 1
              = Returns 42) ∧
  (∃ heap', putElement heap {| JArray.offset := 1 |} 2 7 = Returns heap' ∧
            getElement heap' {| JArray.offset := 1 |} 2 = Returns 7).
Proof.
  cbn zeta. split.
  - apply (proj1 (write_then_read_by_offset _) _ [10; 11]); [reflexivity|cbn; lia].
  - apply (proj2 (write_then_read_by_offset _) _ (3, [20; 21; 22])); [reflexivity|cbn; lia].
Defined.

(** C10: for a live object handle and an in-bounds slot index,
    [putFieldByOffset] returns a heap in which the record keeps its slot
    count, every other slot of the record reads as before, every other
    record of the object store is as before, and the array and monitor
    stores are unchanged; [putElement] does the same on the array store,
    keeping the element count and leaving the object and monitor stores
    unchanged. *)
Theorem put_by_offset_frame (heap : JavaHeap) :
  (∀ (object : JObject.t) (fields : InternalObject) (fieldOffset : N) (value : JTypePtr),
     objectContainer heap !! JObject.offset object = Some fields →
     fieldOffset < N.of_nat (length fields) →
     ∃ heap' fields',
       putFieldByOffset heap object fieldOffset value = Returns heap' ∧
       objectContainer heap' !! JObject.offset object = Some fields' ∧
       length fields' = length fields ∧
       (∀ j : N, j ≠ fieldOffset → fields' !! N.to_nat j = fields !! N.to_nat j) ∧
       (∀ j : N, j ≠ fieldOffset →
          getFieldByOffset heap' object j = getFieldByOffset heap object j) ∧
       (∀ h : N, h ≠ JObject.offset object →
          objectContainer heap' !! h = objectContainer heap !! h) ∧
       arrayContainer heap' = arrayContainer heap ∧
       monitorContainer heap' = monitorContainer heap) ∧
  (∀ (array : JArray.t) (record : InternalArray) (index : N) (value : JTypePtr),
     arrayContainer heap !! JArray.offset array = Some record →
     index < N.of_nat (length record.2) →
     ∃ heap' record',
       putElement heap array index value = Returns heap' ∧
       arrayContainer heap' !! JArray.offset array = Some record' ∧
       record'.1 = record.1 ∧
       length record'.2 = length record.2 ∧
       (∀ j : N, j ≠ index → record'.2 !! N.to_nat j = record.2 !! N.to_nat j) ∧
       (∀ j : N, j ≠ index → getElement heap' array j = getElement heap array j) ∧
       (∀ h : N, h ≠ JArray.offset array →
          arrayContainer heap' !! h = arrayContainer heap !! h) ∧
       objectContainer heap' = objectContainer heap ∧
       monitorContainer heap' = monitorContainer heap).
Proof.
  split.
  - intros object fields fieldOffset value Hlive Hlt.
    assert (∀ j : N, j ≠ fieldOffset →
      <[N.to_nat fieldOffset := value]> fields !! N.to_nat j = fields !! N.to_nat j) as Hother.
    { intros j Hj. apply list_lookup_insert_ne. lia. }
    eexists _, (<[N.to_nat fieldOffset := value]> fields).
    split; [by eapply putFieldByOffset_Returns|].
    split_and!; try done.
    + apply lookup_insert_eq.
    + apply length_insert.
    + intros j Hj.
      erewrite (getFieldByOffset_lookup heap) by done.
      erewrite getFieldByOffset_lookup by apply lookup_insert_eq.
      by rewrite Hother.
    + intros h Hh. cbn. by rewrite lookup_insert_ne.
  - intros array record index value Hlive Hlt.
    assert (∀ j : N, j ≠ index →
      <[N.to_nat index := value]> record.2 !! N.to_nat j = record.2 !! N.to_nat j) as Hother.
    { intros j Hj. apply list_lookup_insert_ne. lia. }
    eexists _, (record.1, <[N.to_nat index := value]> record.2).
    split; [by eapply putElement_Returns|].
    split_and!; try done.
    + apply lookup_insert_eq.
    + apply length_insert.
    + intros j Hj.
      erewrite (getElement_lookup heap) by done.
      erewrite getElement_lookup by apply lookup_insert_eq.
      cbn. by rewrite Hother.
    + intros h Hh. cbn. by rewrite lookup_insert_ne.
Qed.

Lemma put_by_offset_frame_witness :
  let heap := {| objectContainer := {[1 := [10; 11]; 2 := [12]]};
                 arrayContainer := {[1 := (3, [20; 21; 22])]};
                 monitorContainer := {[1 := 30]} |} in
  let object := {| JObject.jc := RootClass "A" []; JObject.offset := 1 |} in
  let array := {| JArray.offset := 1 |} in
  (∃ heap' fields',
     putFieldByOffset heap object 1 42 = Returns heap' ∧
     objectContainer heap' !! 1 = Some fields' ∧
     length fields' = 2%nat ∧
     (∀ j : N, j ≠ 1 → fields' !! N.to_nat j = [10; 11] !! N.to_nat j) ∧
     (∀ j : N, j ≠ 1 → getFieldByOffset heap' object j = getFieldByOffset heap object j) ∧
     (∀ h : N, h ≠ 1 → objectContainer heap' !! h = objectContainer heap !! h) ∧
     arrayContainer heap' = arrayContainer heap ∧
     monitorContainer heap' = monitorContainer heap) ∧
  (∃ heap' record',
     putElement heap array 2 7 = Returns heap' ∧
     arrayContainer heap' !! 1 = Some record' ∧
     record'.1 = 3 ∧
     length record'.2 = 3%nat ∧
     (∀ j : N, j ≠ 2 → record'.2 !! N.to_nat j = [20; 21; 22] !! N.to_nat j) ∧
     (∀ j : N, j ≠ 2 → getElement heap' array j = getElement heap array j) ∧
     (∀ h : N, h ≠ 1 → arrayContainer heap' !! h = arrayContainer heap !! h) ∧
     objectContainer heap' = objectContainer heap ∧
     monitorContainer heap' = monitorContainer heap).
Proof.
  cbn zeta. split.
  - apply (proj1 (put_by_offset_frame _)
      {| JObject.jc := RootClass "A" []; JObject.offset := 1 |} [10; 11] 1 42);
      [reflexivity|cbn; lia].
  - apply (proj2 (put_by_offset_frame _) {| JArray.offset := 1 |} (3, [20; 21; 22]) 2 7);
      [reflexivity|cbn; lia].
Defined.

(** ** Failures *)

(** C5, as stated, fails: no [NotFound] error comes out of [Container::find]
    for the absent handle 2. *)
Lemma find_absent_is_not_NotFound :
  let data : gmap N InternalObject := {[1 := [5]]} in
  data !! 2 = None ∧ Container.find data 2 ≠ Throws NotFound.
Proof. cbn zeta. split; [reflexivity|]. vm_compute. discriminate. Qed.

(** C5, amended: for every store and every handle that is not live in it,
    [Container::find] neither returns a record nor raises an error: it
    dereferences the end iterator, which is undefined behaviour; it is
    [Container::has] that reports the handle as absent. *)
Theorem find_absent_undefined (Type_ : Type) (data : gmap N Type_) (offset : N) :
  data !! offset = None →
  Container.find data offset = Undefined ∧ Container.has data offset = false.
Proof. intros H. split; [by apply find_None|by apply has_false]. Qed.

Lemma find_absent_undefined_witness :
  ({[1 := [5]]} : gmap N InternalObject) !! 2 = None ∧
  Container.find ({[1 := [5]]} : gmap N InternalObject) 2 = Undefined ∧
  Container.has ({[1 := [5]]} : gmap N InternalObject) 2 = false.
Proof.
  split; [reflexivity|]. apply (find_absent_undefined InternalObject). reflexivity.
Defined.

(** C6, as stated, fails: on an array reference and on a primitive value
    neither [hasMonitor] nor [findMonitor] fails with
    [InvalidReferenceKind]. *)
Lemma monitor_ops_on_non_object_are_not_InvalidReferenceKind :
  hasMonitor emptyHeap (Some (ArrayRef {| JArray.offset := 1 |})) ≠ Throws InvalidReferenceKind ∧
  findMonitor emptyHeap (Some (ArrayRef {| JArray.offset := 1 |})) ≠ Throws InvalidReferenceKind ∧
  hasMonitor emptyHeap (Some (Primitive 7)) ≠ Throws InvalidReferenceKind ∧
  findMonitor emptyHeap (Some (Primitive 7)) ≠ Throws InvalidReferenceKind.
Proof. split_and!; discriminate. Qed.

(** C6, amended: for every value that is not an object reference,
    [hasMonitor] and [findMonitor] raise no error: the [dynamic_cast] yields
    a null pointer whose [offset] member is then read, which is undefined
    behaviour. *)
Theorem monitor_ops_on_non_object_undefined (heap : JavaHeap) (ref : option JType) :
  (∀ object, ref ≠ Some (ObjectRef object)) →
  hasMonitor heap ref = Undefined ∧ findMonitor heap ref = Undefined.
Proof.
  intros Hkind. unfold hasMonitor, findMonitor.
  destruct ref as [[bits|object|array]|]; try done.
  by destruct (Hkind object).
Qed.

Lemma monitor_ops_on_non_object_undefined_witness :
  (∀ object, Some (ArrayRef {| JArray.offset := 1 |}) ≠ Some (ObjectRef object)) ∧
  hasMonitor emptyHeap (Some (ArrayRef {| JArray.offset := 1 |})) = Undefined ∧
  findMonitor emptyHeap (Some (ArrayRef {| JArray.offset := 1 |})) = Undefined.
Proof.
  split; [discriminate|].
  apply (monitor_ops_on_non_object_undefined emptyHeap). discriminate.
Defined.

(** C7, as stated, fails: for an instance without a monitor [findMonitor]
    does not fail with [NoMonitor]. *)
Lemma findMonitor_without_monitor_is_not_NoMonitor :
  let ref := Some (ObjectRef {| JObject.jc := RootClass "A" []; JObject.offset := 1 |}) in
  hasMonitor emptyHeap ref = Returns false ∧
  findMonitor emptyHeap ref ≠ Throws NoMonitor.
Proof. cbn zeta. split; [reflexivity|discriminate]. Qed.

(** C7, amended: for every object reference under whose handle the monitor
    store holds nothing, [findMonitor] raises no error: it dereferences the
    end iterator of the monitor store, which is undefined behaviour; it is
    [hasMonitor] that reports the missing monitor, by returning false. *)
Theorem findMonitor_without_monitor_undefined (heap : JavaHeap) (object : JObject.t) :
  monitorContainer heap !! JObject.offset object = None →
  findMonitor heap (Some (ObjectRef object)) = Undefined ∧
  hasMonitor heap (Some (ObjectRef object)) = Returns false.
Proof.
  intros H. unfold findMonitor, hasMonitor. cbn.
  split; [by apply find_None|]. f_equal. by apply has_false.
Qed.

Lemma findMonitor_without_monitor_undefined_witness :
  let object := {| JObject.jc := RootClass "A" []; JObject.offset := 1 |} in
  monitorContainer emptyHeap !! JObject.offset object = None ∧
  findMonitor emptyHeap (Some (ObjectRef object)) = Undefined ∧
  hasMonitor emptyHeap (Some (ObjectRef object)) = Returns false.
Proof.
  cbn zeta. split; [reflexivity|].
  apply (findMonitor_without_monitor_undefined emptyHeap). reflexivity.
Defined.

(** ** Monitors *)

Section monitor_facts.
Implicit Types (heap : JavaHeap) (ops : list HeapOp).

Lemma putFieldByOffset_monitors heap object fieldOffset value heap' :
  putFieldByOffset heap object fieldOffset value = Returns heap' →
  monitorContainer heap' = monitorContainer heap.
Proof.
  unfold putFieldByOffset.
  destruct (Container.find _ _) as [fields| |]; cbn; try done.
  case_decide; [|done]. by intros [= <-].
Qed.

Lemma putElement_monitors heap array index value heap' :
  putElement heap array index value = Returns heap' →
  monitorContainer heap' = monitorContainer heap.
Proof.
  unfold putElement.
  destruct (Container.find _ _) as [record| |]; cbn; try done.
  case_decide; [|done]. by intros [= <-].
Qed.

(** Only the removal of handle [n] from the monitor store takes the monitor
    stored under [n] away or replaces it. *)
Lemma exec_keeps_monitor heap o heap' n m :
  o ≠ CollectMonitor n →
  exec heap o = Returns heap' →
  monitorContainer heap !! n = Some m →
  monitorContainer heap' !! n = Some m.
Proof.
  intros Hne Hexec Hm. destruct o; cbn in Hexec.
  - by rewrite (putFieldByOffset_monitors _ _ _ _ _ Hexec).
  - by rewrite (putElement_monitors _ _ _ _ _ Hexec).
  - by injection Hexec as <-.
  - by injection Hexec as <-.
  - injection Hexec as <-. cbn. by apply map_insert_keeps.
  - injection Hexec as <-. cbn.
    rewrite remove_delete, lookup_delete_ne; [done|]. congruence.
Qed.

Lemma execAll_keeps_monitor ops heap heap' n m :
  Forall (λ o, o ≠ CollectMonitor n) ops →
  execAll heap ops = Returns heap' →
  monitorContainer heap !! n = Some m →
  monitorContainer heap' !! n = Some m.
Proof.
  intros Hops. revert heap. induction Hops as [|o ops Ho _ IH]; intros heap.
  - cbn. by intros [= <-].
  - cbn. destruct (exec heap o) as [heap1| |] eqn:Hexec; cbn; try done.
    intros Hrest Hm. apply (IH heap1 Hrest).
    by eapply exec_keeps_monitor.
Qed.
End monitor_facts.

(** C8, as stated, fails: [createMonitor()] takes no instance.  With two
    live instances and no monitor yet, the monitor created for the instance
    of handle 2 gets handle 1: afterwards [hasMonitor] is still false and
    [findMonitor] undefined on the instance of handle 2, while [hasMonitor]
    is true on the instance of handle 1, for which nothing was created. *)
Lemma createMonitor_ignores_the_instance :
  let heap := {| objectContainer := {[1 := []; 2 := []]};
                 arrayContainer := ∅;
                 monitorContainer := ∅ |} in
  let first := Some (ObjectRef {| JObject.jc := RootClass "A" []; JObject.offset := 1 |}) in
  let second := Some (ObjectRef {| JObject.jc := RootClass "A" []; JObject.offset := 2 |}) in
  let r := createMonitor heap 9 in
  hasMonitor heap second = Returns false ∧
  r.1 = 1 ∧
  hasMonitor r.2 second = Returns false ∧
  findMonitor r.2 second = Undefined ∧
  hasMonitor r.2 first = Returns true.
Proof. cbn zeta. split_and!; by vm_compute. Qed.

(** C8, amended: [createMonitor()] returns a handle of the monitor store,
    chosen without regard to any instance.  For an object reference whose
    handle is the returned one, [hasMonitor] is true after the call and
    [findMonitor] returns one monitor, the same after every further sequence
    of heap operations that does not remove that handle from the monitor
    store; it is the monitor just created whenever [hasMonitor] was false
    before the call.  Before the call [hasMonitor] is false exactly when the
    monitor store holds nothing under the reference's handle. *)
Theorem monitor_found_under_returned_handle (heap : JavaHeap)
    (monitor : InternalMonitor) (object : JObject.t) :
  JObject.offset object = (createMonitor heap monitor).1 →
  let ref := Some (ObjectRef object) in
  let heap' := (createMonitor heap monitor).2 in
  (hasMonitor heap ref = Returns false ↔
     monitorContainer heap !! JObject.offset object = None) ∧
  hasMonitor heap' ref = Returns true ∧
  ∃ m, findMonitor heap' ref = Returns m ∧
       (hasMonitor heap ref = Returns false → m = monitor) ∧
       ∀ (ops : list HeapOp) (heap'' : JavaHeap),
         Forall (λ o, o ≠ CollectMonitor (JObject.offset object)) ops →
         execAll heap' ops = Returns heap'' →
         hasMonitor heap'' ref = Returns true ∧ findMonitor heap'' ref = Returns m.
Proof.
  intros Hn. cbn zeta.
  assert (hasMonitor heap (Some (ObjectRef object)) = Returns false ↔
          monitorContainer heap !! JObject.offset object = None) as Hbefore.
  { unfold hasMonitor. cbn. rewrite <- has_false. split; [by intros [= ->]|by intros ->]. }
  destruct (map_insert_live (JObject.offset object) monitor (monitorContainer heap))
    as [m Hm].
  assert (monitorContainer (createMonitor heap monitor).2 !! JObject.offset object = Some m)
    as Hlive.
  { cbn. cbn in Hn. by rewrite <- Hn. }
  split_and!; [done|..].
  - unfold hasMonitor. cbn -[createMonitor]. f_equal. apply has_true. eauto.
  - exists m. split_and!.
    + unfold findMonitor. cbn -[createMonitor]. by apply find_Some.
    + intros Hfree%Hbefore.
      rewrite (map_insert_lookup_eq _ _ _ Hfree), lookup_insert_eq in Hm. congruence.
    + intros ops heap'' Hops Hrun.
      pose proof (execAll_keeps_monitor _ _ _ _ _ Hops Hrun Hlive) as Hkept.
      unfold hasMonitor, findMonitor. cbn. split.
      * f_equal. apply has_true. eauto.
      * by apply find_Some.
Qed.

Lemma monitor_found_under_returned_handle_witness :
  let heap := {| objectContainer := {[1 := []; 2 := []]};
                 arrayContainer := ∅;
                 monitorContainer := {[1 := 8]} |} in
  let object := {| JObject.jc := RootClass "A" []; JObject.offset := 2 |} in
  let ref := Some (ObjectRef object) in
  JObject.offset object = (createMonitor heap 9).1 ∧
  hasMonitor (createMonitor heap 9).2 ref = Returns true ∧
  ∃ m, findMonitor (createMonitor heap 9).2 ref = Returns m ∧
       (hasMonitor heap ref = Returns false → m = 9) ∧
       ∀ (ops : list HeapOp) (heap'' : JavaHeap),
         Forall (λ o, o ≠ CollectMonitor 2) ops →
         execAll (createMonitor heap 9).2 ops = Returns heap'' →
         hasMonitor heap'' ref = Returns true ∧ findMonitor heap'' ref = Returns m.
Proof.
  cbn zeta. split; [reflexivity|].
  apply (monitor_found_under_returned_handle
    {| objectContainer := {[1 := []; 2 := []]};
       arrayContainer := ∅;
       monitorContainer := {[1 := 8]} |} 9
    {| JObject.jc := RootClass "A" []; JObject.offset := 2 |}).
  reflexivity.
Defined.

(** ** Removal and the slot values *)

(** Removal never touches a [JType] cell. *)
Lemma remove_keeps_cells (heap : JavaHeap) (cells : gset N) (offset : N) :
  (removeObject_cells heap cells offset).2 = cells ∧
  (removeArray_cells heap cells offset).2 = cells.
Proof. done. Qed.

(** C9 at the failing input: the object store holds one record, of handle 1,
    whose only slot value is the cell at address 7, and the array store one
    record, of handle 1, whose only element is the cell at address 8.
    [removeObject(1)] and [removeArray(1)] evict the records and leave both
    cells allocated; the stores' destructors, which would have released the
    cells had the records still been there, no longer reach them. *)
Lemma remove_leaves_slot_values_allocated :
  let heap := {| objectContainer := {[1 := [7]]};
                 arrayContainer := {[1 := (1, [8])]};
                 monitorContainer := ∅ |} in
  let cells : gset N := {[7; 8]} in
  let r := removeObject_cells heap cells 1 in
  let r' := removeArray_cells r.1 r.2 1 in
  objectContainer r'.1 !! 1 = None ∧
  arrayContainer r'.1 !! 1 = None ∧
  r'.2 = cells ∧
  ArrayContainer_dtor (arrayContainer r'.1)
    (ObjectContainer_dtor (objectContainer r'.1) r'.2) = cells ∧
  ArrayContainer_dtor (arrayContainer heap)
    (ObjectContainer_dtor (objectContainer heap) cells) = ∅.
Proof. cbn zeta. split_and!; by vm_compute. Qed.

(** ** Field layout *)

Section layout_facts.
Implicit Types (c D : JavaClass) (chain : list JavaClass).

Lemma sumCounts_app chain1 chain2 :
  sumCounts (chain1 ++ chain2) = sumCounts chain1 + sumCounts chain2.
Proof.
  induction chain1 as [|c chain1 IH]; cbn; [done|].
  fold (sumCounts (chain1 ++ chain2)) (sumCounts chain1). lia.
Qed.

Lemma ancestorChain_length_pos c : (0 < length (ancestorChain c))%nat.
Proof. destruct c; cbn; [lia|]. rewrite length_app. cbn. lia. Qed.

(** The [i]-th class of a chain has the first [i + 1] classes as its own
    chain. *)
Lemma ancestorChain_prefix c i D :
  ancestorChain c !! i = Some D → ancestorChain D = take (S i) (ancestorChain c).
Proof.
  revert i. induction c as [name fields|superClass IH name fields]; intros i Hi.
  - destruct i; cbn in Hi; [|done]. by injection Hi as <-.
  - cbn [ancestorChain] in *.
    destruct (decide (i < length (ancestorChain superClass))%nat) as [Hlt|Hge].
    + rewrite lookup_app_l in Hi by done.
      rewrite take_app_le by lia. by apply IH.
    + rewrite lookup_app_r in Hi by lia.
      destruct (i - length (ancestorChain superClass))%nat eqn:Hd; cbn in Hi; [|done].
      injection Hi as <-. cbn [ancestorChain].
      rewrite take_ge; [done|]. rewrite length_app. cbn. lia.
Qed.

Lemma ancestorChain_first_occurrence c i j D :
  ancestorChain c !! i = Some D → ancestorChain c !! j = Some D → i = j.
Proof.
  intros Hi Hj.
  pose proof (lookup_lt_Some _ _ _ Hi). pose proof (lookup_lt_Some _ _ _ Hj).
  apply ancestorChain_prefix in Hi. apply ancestorChain_prefix in Hj.
  assert (length (take (S i) (ancestorChain c)) = length (take (S j) (ancestorChain c)))
    as Hlen by congruence.
  rewrite !length_take in Hlen. lia.
Qed.

Lemma resolveInChain_at D pre post name descriptor offset :
  D ∉ pre →
  resolveInChain D (pre ++ D :: post) name descriptor offset =
    (i ← localIndex (declaredFields D) name descriptor;
     Returns (offset + sumCounts pre + i)).
Proof.
  revert offset. induction pre as [|c pre IH]; intros offset Hnot; cbn.
  - rewrite decide_True by done. by rewrite N.add_0_r.
  - apply not_elem_of_cons in Hnot as [Hne Hnot].
    rewrite decide_False by done. rewrite IH by done.
    fold (sumCounts pre).
    destruct (localIndex _ _ _); cbn; [|done..]. f_equal. lia.
Qed.

Lemma localIndex_declared (fields : list FieldInfo) (f : FieldInfo) :
  f ∈ fields →
  ∃ i, localIndex fields (fieldName f) (fieldDescriptor f) = Returns i ∧
       i < N.of_nat (length fields).
Proof.
  intros Hf. unfold localIndex.
  destruct (list_find_elem_of
    (λ g, fieldName g = fieldName f ∧ fieldDescriptor g = fieldDescriptor f)
    fields f Hf) as [[i g] Hfind]; [done|].
  rewrite Hfind. exists (N.of_nat i). split; [done|].
  apply list_find_Some in Hfind as (Hi%lookup_lt_Some & _). lia.
Qed.

Section init.
Variable defaultValue : FieldInfo → JTypePtr.

Lemma initOwnFields_length (fields : list FieldInfo) base (slots : InternalObject) :
  length (initOwnFields defaultValue fields base slots) = length slots.
Proof.
  unfold initOwnFields. generalize (imap pair fields). intros l.
  revert slots. induction l as [|jf l IH]; intros slots; cbn; [done|].
  by rewrite IH, length_insert.
Qed.

Lemma createSuperFields_length c (slots : InternalObject) :
  length (createSuperFields defaultValue c slots) = length slots.
Proof.
  induction c as [name fields|superClass IH name fields]; cbn.
  - apply initOwnFields_length.
  - by rewrite initOwnFields_length.
Qed.
End init.
End layout_facts.

(** C3: the record that [createObject] stores for a class with ancestor
    chain [Root, ..., C] has as many slots as the declared-field counts of the
    chain add up to, and a field declared by the [i]-th class of the chain
    resolves by name and descriptor to a slot index between the sum of the
    counts of the classes before [i] and that sum plus the [i]-th count
    minus 1; reading the field by name from the new instance returns a
    value. *)
Theorem instance_layout (defaultValue : FieldInfo → JTypePtr) (heap : JavaHeap)
    (C : JavaClass) :
  let chain := ancestorChain C in
  let r := createObject defaultValue heap C in
  (∃ slots : InternalObject,
     objectContainer r.2 !! JObject.offset r.1 = Some slots ∧
     N.of_nat (length slots) = sumCounts chain) ∧
  (∀ (i : nat) (D : JavaClass) (f : FieldInfo),
     chain !! i = Some D →
     f ∈ declaredFields D →
     ∃ idx : N,
       resolveField D C (fieldName f) (fieldDescriptor f) 0 = Returns idx ∧
       baseOf chain i ≤ idx ∧
       idx ≤ baseOf chain i + fieldsCount D - 1 ∧
       ∃ value, getFieldByName r.2 D (fieldName f) (fieldDescriptor f) r.1 = Returns value).
Proof.
  cbn zeta.
  set (slots := createSuperFields defaultValue C
                  (replicate (N.to_nat (sumCounts (ancestorChain C))) nullptr)).
  assert (N.of_nat (length slots) = sumCounts (ancestorChain C)) as Hlen.
  { unfold slots. rewrite createSuperFields_length, length_replicate. lia. }
  assert (objectContainer (createObject defaultValue heap C).2
            !! JObject.offset (createObject defaultValue heap C).1 = Some slots) as Hslots.
  { cbn. apply lookup_insert_eq. }
  split; [by exists slots|].
  intros i D f Hi Hf.
  destruct (localIndex_declared _ _ Hf) as (li & Hli & Hbound).
  assert (D ∉ take i (ancestorChain C)) as Hnot.
  { intros (j & Hj)%list_elem_of_lookup.
    pose proof (lookup_lt_Some _ _ _ Hj) as Hlt. rewrite length_take in Hlt.
    rewrite lookup_take_lt in Hj by lia.
    pose proof (ancestorChain_first_occurrence _ _ _ _ Hi Hj). lia. }
  assert (resolveField D C (fieldName f) (fieldDescriptor f) 0
          = Returns (baseOf (ancestorChain C) i + li)) as Hres.
  { unfold resolveField. rewrite <- (take_drop_middle _ _ _ Hi) at 1.
    rewrite resolveInChain_at by done. rewrite Hli. cbn. by rewrite N.add_0_l. }
  assert (baseOf (ancestorChain C) i + fieldsCount D ≤ sumCounts (ancestorChain C)) as Hfit.
  { rewrite <- (take_drop_middle _ _ _ Hi) at 2.
    rewrite sumCounts_app. cbn. fold (sumCounts (drop (S i) (ancestorChain C))).
    unfold baseOf. lia. }
  exists (baseOf (ancestorChain C) i + li). unfold fieldsCount in *.
  split_and!; [done|lia|lia|].
  unfold getFieldByName, getFieldByNameImpl.
  change (JObject.jc (createObject defaultValue heap C).1) with C.
  rewrite Hres. change (Returns ?x ≫= ?k) with (k x). cbn beta.
  rewrite (getFieldByOffset_lookup _ _ _ _ Hslots).
  destruct (lookup_lt_is_Some_2 slots (N.to_nat (baseOf (ancestorChain C) i + li)))
    as [value Hvalue]; [lia|].
  rewrite Hvalue. by exists value.
Qed.

Lemma instance_layout_witness :
  let A := RootClass "A" [{| fieldName := "x"; fieldDescriptor := "I" |}] in
  let B := DerivedClass A "B" [{| fieldName := "y"; fieldDescriptor := "I" |}] in
  let y := {| fieldName := "y"; fieldDescriptor := "I" |} in
  let r := createObject (λ _, nullptr) emptyHeap B in
  ancestorChain B !! 1%nat = Some B ∧
  y ∈ declaredFields B ∧
  ∃ idx : N,
    resolveField B B (fieldName y) (fieldDescriptor y) 0 = Returns idx ∧
    baseOf (ancestorChain B) 1 ≤ idx ∧
    idx ≤ baseOf (ancestorChain B) 1 + fieldsCount B - 1 ∧
    ∃ value, getFieldByName r.2 B (fieldName y) (fieldDescriptor y) r.1 = Returns value.
Proof.
  intros A B y r. split; [reflexivity|]. split; [apply list_elem_of_here|].
  apply (proj2 (instance_layout (λ _, nullptr) emptyHeap B) 1%nat B y);
    [reflexivity|apply list_elem_of_here].
Defined.

(** The scenario of the spec: [B] extends [A], [A] declares [x], [B] declares
    [y]; [B.y] resolves to slot 1 and [A.x] to slot 0 of an instance of [B],
    which has two slots. *)
Example layout_scenario :
  let A := RootClass "A" [{| fieldName := "x"; fieldDescriptor := "I" |}] in
  let B := DerivedClass A "B" [{| fieldName := "y"; fieldDescriptor := "I" |}] in
  resolveField B B "y" "I" 0 = Returns 1 ∧
  resolveField A B "x" "I" 0 = Returns 0 ∧
  resolveField A B "x" "J" 0 = Throws DescriptorMismatch ∧
  resolveField A B "z" "I" 0 = Throws FieldNotFound ∧
  sumCounts (ancestorChain B) = 2.
Proof. cbn zeta. split_and!; by vm_compute. Qed.

(** * Further properties of the arena *)

Section arena_more.
Context {Type_ : Type}.
Implicit Types (data : gmap N Type_) (k offset : N) (v : Type_).

Lemma lastOffset_delete_largest data k :
  Arena.largestLive data k → Container.lastOffset (delete k data) < k ∨ k = 0.
Proof.
  intros [Hk Hmax]. destruct (decide (k = 0)) as [->|Hk0]; [by right|left].
  destruct (decide (delete k data = ∅)) as [He|Hne].
  - rewrite He, lastOffset_empty. lia.
  - pose proof (lastOffset_live _ Hne) as Hlive.
    apply lookup_delete_is_Some in Hlive as [Hneq Hlive].
    specialize (Hmax _ Hlive). lia.
Qed.

(** X1: after [remove(offset)] the handle is gone ([has] is false, [find]
    is undefined), every other entry is as before, and removing a handle
    that is not live changes nothing. *)
Theorem remove_finality data offset :
  let data' := Container.remove data offset in
  Container.has data' offset = false ∧
  Container.find data' offset = Undefined ∧
  (∀ j, j ≠ offset → data' !! j = data !! j) ∧
  (Container.has data offset = false → data' = data).
Proof.
  cbn zeta. rewrite remove_delete. split_and!.
  - apply has_false, lookup_delete_eq.
  - apply find_None, lookup_delete_eq.
  - intros j Hj. by rewrite lookup_delete_ne.
  - intros Hh%has_false. by apply delete_id.
Qed.

(** X2: removals commute, and a second removal of the same handle does
    nothing. *)
Theorem remove_commutes data (a b : N) :
  Container.remove (Container.remove data a) b = Container.remove (Container.remove data b) a ∧
  Container.remove (Container.remove data a) a = Container.remove data a.
Proof.
  rewrite !remove_delete. split; [apply delete_delete|].
  apply delete_id, lookup_delete_eq.
Qed.

(** X3: whatever the store, [place] keeps every live record as it is, adds
    no handle other than the one it returns, and the handle it returns is
    live afterwards and fits a [size_t]. *)
Theorem place_keeps_live_records v data :
  let r := Container.place v data in
  (∀ j x, data !! j = Some x → r.2 !! j = Some x) ∧
  (∀ j, is_Some (r.2 !! j) → j = r.1 ∨ is_Some (data !! j)) ∧
  Container.has r.2 r.1 = true ∧
  r.1 ≤ SIZE_MAX.
Proof.
  cbn zeta. cbn [Container.place fst snd]. split_and!.
  - intros j x. apply map_insert_keeps.
  - intros j. unfold Container.map_insert.
    destruct (data !! size_add _ 1) eqn:Hl; [by right|].
    rewrite lookup_insert_is_Some. intros [<-|[_ Hj]]; [by left|by right].
  - apply has_true, map_insert_live.
  - unfold size_add, SIZE_MAX.
    pose proof (N.mod_upper_bound (Container.lastOffset data + 1) (2 ^ SIZE_BITS)). lia.
Qed.

(** X4: while the handle space is not exhausted, removing the handle that
    [place] has just returned gives back the store as it was, so the next
    [place] returns the very same handle again. *)
Theorem remove_undoes_place v data :
  Container.lastOffset data < SIZE_MAX →
  let r := Container.place v data in
  Container.remove r.2 r.1 = data ∧
  Container.place v (Container.remove r.2 r.1) = r.
Proof.
  intros Hlt. cbn zeta.
  assert (Container.remove (Container.place v data).2 (Container.place v data).1 = data) as Hback.
  { destruct (next_offset_free data) as [Hadd Hfree].
    { intros j Hj%lastOffset_upper. lia. }
    cbn [Container.place fst snd]. rewrite remove_delete, Hadd.
    rewrite (map_insert_lookup_eq _ _ _ Hfree).
    by rewrite delete_insert_id. }
  split; [done|]. by rewrite Hback.
Qed.

(** X5: removing the largest live handle [k] (a [size_t], at least 1) makes
    the next [place] hand out a handle that is at most [k]; it is [k] itself
    exactly when [k] is 1 or [k - 1] is live. *)
Theorem place_reuses_largest_removed v data k :
  Arena.largestLive data k →
  1 ≤ k →
  k ≤ SIZE_MAX →
  let r := Container.place v (Container.remove data k) in
  1 ≤ r.1 ∧ r.1 ≤ k ∧ (r.1 = k ↔ k = 1 ∨ is_Some (data !! (k - 1))).
Proof.
  intros Hlargest Hk1 Hkmax. cbn zeta. cbn [Container.place fst].
  rewrite remove_delete.
  destruct (lastOffset_delete_largest _ _ Hlargest) as [Hlt|?]; [|lia].
  rewrite size_add_small by lia.
  split_and!; [lia|lia|]. split.
  - intros Heq. destruct (decide (k = 1)) as [|Hk]; [by left|right].
    assert (delete k data ≠ ∅) as Hne.
    { intros He. rewrite He, lastOffset_empty in Heq. lia. }
    pose proof (lastOffset_live _ Hne) as Hlive.
    apply lookup_delete_is_Some in Hlive as [_ Hlive].
    replace (k - 1) with (Container.lastOffset (delete k data)) by lia. done.
  - intros [->|Hprev].
    + assert (Container.lastOffset (delete 1 data) = 0) by lia. lia.
    + assert (is_Some (delete k data !! (k - 1))) as Hlive.
      { apply lookup_delete_is_Some. split; [lia|done]. }
      apply lastOffset_upper in Hlive. lia.
Qed.

(** X6: two successive allocations return consecutive handles, both live
    afterwards with the value-initialised record, and leave every earlier
    record as it was. *)
Theorem place_twice_consecutive v data :
  Container.lastOffset data + 1 < SIZE_MAX →
  let r1 := Container.place v data in
  let r2 := Container.place v r1.2 in
  r1.1 = Container.lastOffset data + 1 ∧
  r2.1 = r1.1 + 1 ∧
  r2.2 !! r1.1 = Some v ∧
  r2.2 !! r2.1 = Some v ∧
  (∀ j, j ≠ r1.1 → j ≠ r2.1 → r2.2 !! j = data !! j).
Proof.
  intros Hlt. cbn zeta.
  assert (Container.lastOffset data < SIZE_MAX) as Hlt1 by lia.
  destruct (place_next v data Hlt1) as (_ & _ & _ & Hfree1 & Hnew1 & Hother1).
  assert ((Container.place v data).1 = Container.lastOffset data + 1) as H1.
  { cbn. by apply size_add_small. }
  assert (Container.lastOffset (Container.place v data).2 = (Container.place v data).1) as Hlast.
  { symmetry. apply largestLive_unique. split; [by rewrite Hnew1; eauto|].
    intros j Hj. destruct (decide (j = (Container.place v data).1)) as [->|Hne]; [lia|].
    rewrite (Hother1 j Hne) in Hj. apply lastOffset_upper in Hj. lia. }
  assert (Container.lastOffset (Container.place v data).2 < SIZE_MAX) as Hlt2 by lia.
  destruct (place_next v _ Hlt2) as (_ & _ & _ & Hfree2 & Hnew2 & Hother2).
  assert ((Container.place v (Container.place v data).2).1 = (Container.place v data).1 + 1) as H2.
  { unfold Container.place at 1. cbn [fst]. rewrite Hlast. apply size_add_small. lia. }
  split_and!; try done.
  - rewrite Hother2 by lia. done.
  - intros j Hj1 Hj2. by rewrite Hother2, Hother1.
Qed.
End arena_more.

Section short_runs.
Context {Type_ : Type}.
Variable d : Type_.
Implicit Types (data : gmap N Type_) (ops : list Arena.op).

Lemma lastOffset_bounded data (n : N) :
  (∀ j, is_Some (data !! j) → j ≤ n) → Container.lastOffset data ≤ n.
Proof.
  intros Hb. destruct (decide (data = ∅)) as [->|Hne].
  - rewrite lastOffset_empty. lia.
  - by apply Hb, lastOffset_live.
Qed.

Lemma run_handles_in_range ops data (n : N) :
  (∀ j, is_Some (data !! j) → 1 ≤ j ∧ j ≤ n) →
  n + opCount ops ≤ SIZE_MAX →
  ∀ j, is_Some (Arena.run d ops data !! j) → 1 ≤ j ∧ j ≤ n + opCount ops.
Proof.
  revert data n. induction ops as [|o ops IH]; intros data n Hb Hn j.
  - cbn. intros Hj%Hb. unfold opCount. cbn. lia.
  - unfold opCount in *. cbn [length] in *.
    change (Arena.run d (o :: ops) data) with (Arena.run d ops (Arena.step d data o)).
    intros Hj. apply (IH _ (n + 1)) in Hj; [lia| |lia].
    clear j Hj. intros j. destruct o as [|offset]; cbn.
    + pose proof (lastOffset_bounded data n (λ j Hj, proj2 (Hb j Hj))) as Hlo.
      rewrite size_add_small by lia.
      unfold Container.map_insert.
      destruct (data !! (Container.lastOffset data + 1)) eqn:Hl.
      * intros Hj%Hb. lia.
      * rewrite lookup_insert_is_Some. intros [<-|[_ Hj%Hb]]; lia.
    + rewrite remove_delete, lookup_delete_is_Some. intros [_ Hj%Hb]. lia.
Qed.

(** X7: a run of fewer than [SIZE_MAX] operations from the empty store never
    wraps around: every live handle lies between 1 and the number of
    operations run, and the next [place] returns the handle after the
    largest live one (1 for the empty store), which is free, and stores the
    new record under it. *)
Theorem short_runs_never_wrap ops :
  opCount ops < SIZE_MAX →
  let data := Arena.run d ops ∅ in
  (∀ j, is_Some (data !! j) → 1 ≤ j ∧ j ≤ opCount ops) ∧
  Container.has data 0 = false ∧
  Arena.placedAsNext data (Container.place d data) d.
Proof.
  intros Hshort. cbn zeta.
  assert (∀ j, is_Some (Arena.run d ops ∅ !! j) → 1 ≤ j ∧ j ≤ opCount ops) as Hrange.
  { intros j Hj. apply (run_handles_in_range ops ∅ 0) in Hj; [lia| |lia].
    intros i [x Hx]. by rewrite lookup_empty in Hx. }
  split_and!; [done| |].
  - apply has_false, eq_None_not_Some. intros Hz%Hrange. lia.
  - apply place_next.
    pose proof (lastOffset_bounded _ (opCount ops) (λ j Hj, proj2 (Hrange j Hj))). lia.
Qed.
End short_runs.

Lemma remove_undoes_place_witness :
  let data : gmap N InternalObject := {[1 := [5]; 2 := [6]]} in
  Container.lastOffset data < SIZE_MAX ∧
  Container.remove (Container.place [] data).2 (Container.place [] data).1 = data ∧
  Container.place [] (Container.remove (Container.place [] data).2 (Container.place [] data).1)
    = Container.place [] data.
Proof.
  cbn zeta. split; [by vm_compute|].
  apply (remove_undoes_place ([] : InternalObject) {[1 := [5]; 2 := [6]]}).
  by vm_compute.
Defined.

Lemma place_reuses_largest_removed_witness :
  let data : gmap N InternalObject := {[1 := [5]; 2 := [6]; 3 := []]} in
  Arena.largestLive data 3 ∧ 1 ≤ 3 ∧ 3 ≤ SIZE_MAX ∧
  1 ≤ (Container.place [] (Container.remove data 3)).1 ∧
  (Container.place [] (Container.remove data 3)).1 ≤ 3 ∧
  ((Container.place [] (Container.remove data 3)).1 = 3 ↔ 3 = 1 ∨ is_Some (data !! (3 - 1))).
Proof.
  cbn zeta.
  assert (Arena.largestLive ({[1 := [5]; 2 := [6]; 3 := []]} : gmap N InternalObject) 3)
    as Hlargest.
  { replace 3 with (Container.lastOffset ({[1 := [5]; 2 := [6]; 3 := []]} : gmap N InternalObject))
      at 2 by (by vm_compute).
    apply lastOffset_largest. intros He. by apply (f_equal (λ m, m !! 1)) in He. }
  split; [exact Hlargest|]. split; [by vm_compute|]. split; [by vm_compute|].
  apply (place_reuses_largest_removed ([] : InternalObject) _ 3 Hlargest); by vm_compute.
Defined.

Lemma place_twice_consecutive_witness :
  let data : gmap N InternalObject := {[1 := [5]; 4 := [6]]} in
  Container.lastOffset data + 1 < SIZE_MAX ∧
  (Container.place [] data).1 = Container.lastOffset data + 1 ∧
  (Container.place [] (Container.place [] data).2).1 = (Container.place [] data).1 + 1.
Proof.
  cbn zeta. split; [by vm_compute|].
  pose proof (place_twice_consecutive ([] : InternalObject) {[1 := [5]; 4 := [6]]}) as H.
  cbn zeta in H. split; apply H; by vm_compute.
Defined.

Lemma short_runs_never_wrap_witness :
  let ops := [Arena.Place; Arena.Place; Arena.Remove 1; Arena.Place] in
  opCount ops < SIZE_MAX ∧
  Container.has (Arena.run ([] : InternalObject) ops ∅) 0 = false ∧
  Arena.placedAsNext (Arena.run ([] : InternalObject) ops ∅)
    (Container.place [] (Arena.run ([] : InternalObject) ops ∅)) [].
Proof.
  cbn zeta. split; [by vm_compute|].
  apply (short_runs_never_wrap ([] : InternalObject)
    [Arena.Place; Arena.Place; Arena.Remove 1; Arena.Place]).
  by vm_compute.
Defined.

(** * Further properties of the facade *)

Section facade_more.
Implicit Types (heap : JavaHeap) (object : JObject.t) (array : JArray.t).

Lemma set_objectContainer_id heap :
  set_objectContainer heap (objectContainer heap) = heap.
Proof. by destruct heap. Qed.

Lemma set_arrayContainer_id heap :
  set_arrayContainer heap (arrayContainer heap) = heap.
Proof. by destruct heap. Qed.

Lemma putFieldByOffset_unfold heap object fieldOffset value :
  putFieldByOffset heap object fieldOffset value =
    match objectContainer heap !! JObject.offset object with
    | Some fields =>
        if decide (fieldOffset < N.of_nat (length fields)) then
          Returns (set_objectContainer heap
            (<[JObject.offset object := <[N.to_nat fieldOffset := value]> fields]>
               (objectContainer heap)))
        else Undefined
    | None => Undefined
    end.
Proof.
  unfold putFieldByOffset, Container.find.
  by destruct (objectContainer heap !! JObject.offset object).
Qed.

Lemma putElement_unfold heap array index value :
  putElement heap array index value =
    match arrayContainer heap !! JArray.offset array with
    | Some record =>
        if decide (index < N.of_nat (length record.2)) then
          Returns (set_arrayContainer heap
            (<[JArray.offset array := (record.1, <[N.to_nat index := value]> record.2)]>
               (arrayContainer heap)))
        else Undefined
    | None => Undefined
    end.
Proof.
  unfold putElement, Container.find.
  by destruct (arrayContainer heap !! JArray.offset array).
Qed.

Lemma getFieldByOffset_unfold heap object fieldOffset :
  getFieldByOffset heap object fieldOffset =
    match objectContainer heap !! JObject.offset object with
    | Some fields =>
        match fields !! N.to_nat fieldOffset with
        | Some value => Returns value
        | None => Undefined
        end
    | None => Undefined
    end.
Proof.
  unfold getFieldByOffset, Container.find.
  by destruct (objectContainer heap !! JObject.offset object).
Qed.

Lemma getElement_unfold heap array index :
  getElement heap array index =
    match arrayContainer heap !! JArray.offset array with
    | Some record =>
        match record.2 !! N.to_nat index with
        | Some value => Returns value
        | None => Undefined
        end
    | None => Undefined
    end.
Proof.
  unfold getElement, Container.find.
  by destruct (arrayContainer heap !! JArray.offset array).
Qed.

Lemma lookup_N_lt {A} (l : list A) (i : N) :
  is_Some (l !! N.to_nat i) ↔ i < N.of_nat (length l).
Proof. rewrite lookup_lt_is_Some. lia. Qed.

(** X8: the facade checks neither handle nor index.  An access by offset
    returns exactly when the handle is live and the index is below the
    record's slot count (for arrays: below the length of the element
    buffer); in every other case it is undefined, and it never raises an
    error. *)
Theorem access_by_offset_defined_iff heap :
  (∀ object (fieldOffset : N) (value : JTypePtr),
     let inBounds := ∃ fields, objectContainer heap !! JObject.offset object = Some fields ∧
                               fieldOffset < N.of_nat (length fields) in
     ((∃ heap', putFieldByOffset heap object fieldOffset value = Returns heap') ↔ inBounds) ∧
     ((∃ slot, getFieldByOffset heap object fieldOffset = Returns slot) ↔ inBounds) ∧
     (¬ inBounds → putFieldByOffset heap object fieldOffset value = Undefined ∧
                   getFieldByOffset heap object fieldOffset = Undefined)) ∧
  (∀ array (index : N) (value : JTypePtr),
     let inBounds := ∃ record, arrayContainer heap !! JArray.offset array = Some record ∧
                               index < N.of_nat (length record.2) in
     ((∃ heap', putElement heap array index value = Returns heap') ↔ inBounds) ∧
     ((∃ slot, getElement heap array index = Returns slot) ↔ inBounds) ∧
     (¬ inBounds → putElement heap array index value = Undefined ∧
                   getElement heap array index = Undefined)).
Proof.
  split.
  - intros object fieldOffset value. cbn zeta.
    rewrite putFieldByOffset_unfold, getFieldByOffset_unfold.
    destruct (objectContainer heap !! JObject.offset object) as [fields|].
    + pose proof (lookup_N_lt fields fieldOffset) as Hlt.
      destruct (fields !! N.to_nat fieldOffset) as [slot|] eqn:Hslot.
      * assert (fieldOffset < N.of_nat (length fields)) as Hin by (apply Hlt; eauto).
        rewrite decide_True by done.
        split_and!; [split; eauto..|]. intros []. eauto.
      * assert (¬ fieldOffset < N.of_nat (length fields)) as Hout.
        { intros [? ?]%Hlt. done. }
        rewrite decide_False by done.
        split_and!; [| |done];
          (split; [by intros [? ?]|]; intros (? & [= <-] & ?); done).
    + split_and!; [| |done]; (split; [by intros [? ?]|by intros (? & ? & ?)]).
  - intros array index value. cbn zeta.
    rewrite putElement_unfold, getElement_unfold.
    destruct (arrayContainer heap !! JArray.offset array) as [record|].
    + pose proof (lookup_N_lt record.2 index) as Hlt.
      destruct (record.2 !! N.to_nat index) as [slot|] eqn:Hslot.
      * assert (index < N.of_nat (length record.2)) as Hin by (apply Hlt; eauto).
        rewrite decide_True by done.
        split_and!; [split; eauto..|]. intros []. eauto.
      * assert (¬ index < N.of_nat (length record.2)) as Hout.
        { intros [? ?]%Hlt. done. }
        rewrite decide_False by done.
        split_and!; [| |done];
          (split; [by intros [? ?]|]; intros (? & [= <-] & ?); done).
    + split_and!; [| |done]; (split; [by intros [? ?]|by intros (? & ? & ?)]).
Qed.

(** X9: of two writes to the same slot the second one wins, whether or not
    the access is defined. *)
Theorem last_write_wins heap :
  (∀ object (fieldOffset : N) (v1 v2 : JTypePtr),
     (putFieldByOffset heap object fieldOffset v1 ≫=
        λ heap1, putFieldByOffset heap1 object fieldOffset v2)
     = putFieldByOffset heap object fieldOffset v2) ∧
  (∀ array (index : N) (v1 v2 : JTypePtr),
     (putElement heap array index v1 ≫= λ heap1, putElement heap1 array index v2)
     = putElement heap array index v2).
Proof.
  split.
  - intros object fieldOffset v1 v2.
    rewrite !(putFieldByOffset_unfold heap).
    destruct (objectContainer heap !! JObject.offset object) as [fields|]; [|done].
    case_decide; [|done]. cbn.
    rewrite putFieldByOffset_unfold. cbn. rewrite lookup_insert_eq.
    rewrite decide_True by (by rewrite length_insert).
    by rewrite insert_insert_eq, list_insert_insert_eq.
  - intros array index v1 v2.
    rewrite !(putElement_unfold heap).
    destruct (arrayContainer heap !! JArray.offset array) as [record|]; [|done].
    case_decide; [|done]. cbn.
    rewrite putElement_unfold. cbn. rewrite lookup_insert_eq. cbn.
    rewrite decide_True by (by rewrite length_insert).
    by rewrite insert_insert_eq, list_insert_insert_eq.
Qed.

(** X10: writes to different slots commute, within one store (different
    handle or different index) and across the object and array stores,
    whether or not the accesses are defined. *)
Theorem writes_commute heap :
  (∀ object1 object2 (i j : N) (v w : JTypePtr),
     (JObject.offset object1, i) ≠ (JObject.offset object2, j) →
     (putFieldByOffset heap object1 i v ≫= λ heap1, putFieldByOffset heap1 object2 j w)
     = (putFieldByOffset heap object2 j w ≫= λ heap1, putFieldByOffset heap1 object1 i v)) ∧
  (∀ array1 array2 (i j : N) (v w : JTypePtr),
     (JArray.offset array1, i) ≠ (JArray.offset array2, j) →
     (putElement heap array1 i v ≫= λ heap1, putElement heap1 array2 j w)
     = (putElement heap array2 j w ≫= λ heap1, putElement heap1 array1 i v)) ∧
  (∀ object array (i j : N) (v w : JTypePtr),
     (putFieldByOffset heap object i v ≫= λ heap1, putElement heap1 array j w)
     = (putElement heap array j w ≫= λ heap1, putFieldByOffset heap1 object i v)).
Proof.
  split_and!.
  - intros object1 object2 i j v w Hne.
    rewrite !(putFieldByOffset_unfold heap).
    destruct (decide (JObject.offset object1 = JObject.offset object2)) as [Heq|Hh].
    + assert (N.to_nat i ≠ N.to_nat j) as Hij by (intros ?; apply Hne; f_equal; [done|lia]).
      rewrite <- Heq.
      destruct (objectContainer heap !! JObject.offset object1) as [fields|]; [|done].
      destruct (decide (i < N.of_nat (length fields)));
        destruct (decide (j < N.of_nat (length fields))); cbn;
        rewrite ?putFieldByOffset_unfold; cbn;
        rewrite <- ?Heq, ?lookup_insert_eq, ?length_insert;
        rewrite ?decide_True, ?decide_False by done; try done.
      rewrite !insert_insert_eq. by rewrite list_insert_insert_ne.
    + destruct (objectContainer heap !! JObject.offset object1) as [fields1|] eqn:H1;
        destruct (objectContainer heap !! JObject.offset object2) as [fields2|] eqn:H2;
        repeat case_decide; cbn;
        rewrite ?putFieldByOffset_unfold; cbn;
        rewrite ?lookup_insert_ne by done; rewrite ?H1, ?H2;
        rewrite ?decide_True, ?decide_False by done; try done.
      by rewrite insert_insert_ne.
  - intros array1 array2 i j v w Hne.
    rewrite !(putElement_unfold heap).
    destruct (decide (JArray.offset array1 = JArray.offset array2)) as [Heq|Hh].
    + assert (N.to_nat i ≠ N.to_nat j) as Hij by (intros ?; apply Hne; f_equal; [done|lia]).
      rewrite <- Heq.
      destruct (arrayContainer heap !! JArray.offset array1) as [record|]; [|done].
      destruct (decide (i < N.of_nat (length record.2)));
        destruct (decide (j < N.of_nat (length record.2))); cbn;
        rewrite ?putElement_unfold; cbn;
        rewrite <- ?Heq, ?lookup_insert_eq; cbn; rewrite ?length_insert;
        rewrite ?decide_True, ?decide_False by done; try done.
      rewrite !insert_insert_eq. by rewrite list_insert_insert_ne.
    + destruct (arrayContainer heap !! JArray.offset array1) as [record1|] eqn:H1;
        destruct (arrayContainer heap !! JArray.offset array2) as [record2|] eqn:H2;
        repeat case_decide; cbn;
        rewrite ?putElement_unfold; cbn;
        rewrite ?lookup_insert_ne by done; rewrite ?H1, ?H2;
        rewrite ?decide_True, ?decide_False by done; try done.
      by rewrite insert_insert_ne.
  - intros object array i j v w.
    rewrite (putFieldByOffset_unfold heap), (putElement_unfold heap).
    destruct (objectContainer heap !! JObject.offset object) as [fields|] eqn:H1;
      destruct (arrayContainer heap !! JArray.offset array) as [record|] eqn:H2;
      repeat case_decide; cbn;
      rewrite ?putFieldByOffset_unfold, ?putElement_unfold; cbn;
      rewrite ?H1, ?H2; rewrite ?decide_True, ?decide_False by done; done.
Qed.

(** X11: writing back the value just read from a slot leaves the heap as it
    is. *)
Theorem write_back_is_identity heap :
  (∀ object (fieldOffset : N) (value : JTypePtr),
     getFieldByOffset heap object fieldOffset = Returns value →
     putFieldByOffset heap object fieldOffset value = Returns heap) ∧
  (∀ array (index : N) (value : JTypePtr),
     getElement heap array index = Returns value →
     putElement heap array index value = Returns heap).
Proof.
  split.
  - intros object fieldOffset value.
    rewrite getFieldByOffset_unfold, putFieldByOffset_unfold.
    destruct (objectContainer heap !! JObject.offset object) as [fields|] eqn:Hlive; [|done].
    destruct (fields !! N.to_nat fieldOffset) as [slot|] eqn:Hslot; [|done].
    intros [= ->]. rewrite decide_True by (apply lookup_N_lt; eauto).
    rewrite list_insert_id, insert_id by done. by rewrite set_objectContainer_id.
  - intros array index value.
    rewrite getElement_unfold, putElement_unfold.
    destruct (arrayContainer heap !! JArray.offset array) as [[count elements]|] eqn:Hlive; [|done].
    cbn. destruct (elements !! N.to_nat index) as [slot|] eqn:Hslot; [|done].
    intros [= ->]. rewrite decide_True by (apply lookup_N_lt; eauto).
    rewrite list_insert_id, insert_id by done. by rewrite set_arrayContainer_id.
Qed.

(** X12: after [removeObject(offset)] every access to that handle is
    undefined, the other object records read as before, and the array and
    monitor stores are unchanged; [removeArray] is the same on the array
    store. *)
Theorem use_after_remove_undefined heap (offset : N) :
  (let heap' := removeObject heap offset in
   (∀ object (i : N) (value : JTypePtr),
      JObject.offset object = offset →
      getFieldByOffset heap' object i = Undefined ∧
      putFieldByOffset heap' object i value = Undefined ∧
      getFields heap' object = Undefined) ∧
   (∀ object (i : N),
      JObject.offset object ≠ offset →
      getFieldByOffset heap' object i = getFieldByOffset heap object i ∧
      getFields heap' object = getFields heap object) ∧
   arrayContainer heap' = arrayContainer heap ∧
   monitorContainer heap' = monitorContainer heap) ∧
  (let heap' := removeArray heap offset in
   (∀ array (i : N) (value : JTypePtr),
      JArray.offset array = offset →
      getElement heap' array i = Undefined ∧
      putElement heap' array i value = Undefined ∧
      getElements heap' array = Undefined) ∧
   (∀ array (i : N),
      JArray.offset array ≠ offset →
      getElement heap' array i = getElement heap array i ∧
      getElements heap' array = getElements heap array) ∧
   objectContainer heap' = objectContainer heap ∧
   monitorContainer heap' = monitorContainer heap).
Proof.
  split; cbn zeta; (split_and!; [| |done..]).
  - intros object i value <-.
    rewrite getFieldByOffset_unfold, putFieldByOffset_unfold.
    unfold getFields, Container.find. cbn.
    by rewrite remove_delete, lookup_delete_eq.
  - intros object i Hne.
    rewrite !getFieldByOffset_unfold. unfold getFields, Container.find. cbn.
    by rewrite remove_delete, lookup_delete_ne.
  - intros array i value <-.
    rewrite getElement_unfold, putElement_unfold.
    unfold getElements, Container.find. cbn.
    by rewrite remove_delete, lookup_delete_eq.
  - intros array i Hne.
    rewrite !getElement_unfold. unfold getElements, Container.find. cbn.
    by rewrite remove_delete, lookup_delete_ne.
Qed.

(** X13: [findMonitor] returns a monitor exactly when [hasMonitor] returns
    true; when [hasMonitor] returns false or is itself undefined,
    [findMonitor] is undefined. *)
Theorem findMonitor_defined_iff_hasMonitor heap (ref : option JType) :
  ((∃ monitor, findMonitor heap ref = Returns monitor) ↔ hasMonitor heap ref = Returns true) ∧
  (hasMonitor heap ref ≠ Returns true → findMonitor heap ref = Undefined).
Proof.
  unfold findMonitor, hasMonitor, Container.find, Container.has.
  destruct (dynamic_cast_JObject ref) as [object|].
  - destruct (monitorContainer heap !! JObject.offset object) as [monitor|] eqn:Hm.
    + rewrite bool_decide_eq_true_2 by eauto. split; [split; eauto|done].
    + rewrite bool_decide_eq_false_2 by (by intros [? ?]).
      split; [|done]. split; [by intros [? ?]|done].
  - split; [|done]. split; [by intros [? ?]|done].
Qed.
End facade_more.

Lemma writes_commute_witness :
  let heap := {| objectContainer := {[1 := [10; 11]; 2 := [12]]};
                 arrayContainer := {[1 := (3, [20; 21; 22])]};
                 monitorContainer := ∅ |} in
  let first := {| JObject.jc := RootClass "A" []; JObject.offset := 1 |} in
  let second := {| JObject.jc := RootClass "A" []; JObject.offset := 2 |} in
  (JObject.offset first, 1) ≠ (JObject.offset second, 0) ∧
  (putFieldByOffset heap first 1 42 ≫= λ heap1, putFieldByOffset heap1 second 0 43)
  = (putFieldByOffset heap second 0 43 ≫= λ heap1, putFieldByOffset heap1 first 1 42).
Proof.
  cbn zeta. split; [done|].
  apply (proj1 (writes_commute _)
    {| JObject.jc := RootClass "A" []; JObject.offset := 1 |}
    {| JObject.jc := RootClass "A" []; JObject.offset := 2 |} 1 0 42 43).
  done.
Defined.

Lemma write_back_is_identity_witness :
  let heap := {| objectContainer := {[1 := [10; 11]]};
                 arrayContainer := {[1 := (3, [20; 21; 22])]};
                 monitorContainer := ∅ |} in
  let object := {| JObject.jc := RootClass "A" []; JObject.offset := 1 |} in
  getFieldByOffset heap object 1 = Returns 11 ∧
  putFieldByOffset heap object 1 11 = Returns heap.
Proof.
  cbn zeta. split; [reflexivity|].
  apply (proj1 (write_back_is_identity _)
    {| JObject.jc := RootClass "A" []; JObject.offset := 1 |} 1 11).
  reflexivity.
Defined.

Section facade_sequences.
Implicit Types (heap : JavaHeap) (ops : list HeapOp).

Lemma putFieldByOffset_arrays heap object fieldOffset value heap' :
  putFieldByOffset heap object fieldOffset value = Returns heap' →
  arrayContainer heap' = arrayContainer heap.
Proof.
  rewrite putFieldByOffset_unfold.
  destruct (objectContainer heap !! _); [|done]. case_decide; [|done]. by intros [= <-].
Qed.

Lemma putElement_objects heap array index value heap' :
  putElement heap array index value = Returns heap' →
  objectContainer heap' = objectContainer heap.
Proof.
  rewrite putElement_unfold.
  destruct (arrayContainer heap !! _); [|done]. case_decide; [|done]. by intros [= <-].
Qed.

Lemma exec_other_stores heap o heap' :
  exec heap o = Returns heap' →
  (storeOf o ≠ ObjectStore → objectContainer heap' = objectContainer heap) ∧
  (storeOf o ≠ ArrayStore → arrayContainer heap' = arrayContainer heap) ∧
  (storeOf o ≠ MonitorStore → monitorContainer heap' = monitorContainer heap).
Proof.
  intros Hexec. destruct o; cbn in Hexec; cbn [storeOf].
  - split_and!; [done| |]; intros _.
    + by eapply putFieldByOffset_arrays.
    + by eapply putFieldByOffset_monitors.
  - split_and!; [|done|]; intros _.
    + by eapply putElement_objects.
    + by eapply putElement_monitors.
  - injection Hexec as <-. by split_and!.
  - injection Hexec as <-. by split_and!.
  - injection Hexec as <-. by split_and!.
  - injection Hexec as <-. by split_and!.
Qed.

(** X14: a sequence of heap operations changes only the stores its
    operations work on: without an object operation the object store is as
    before, and likewise the array store and the monitor store. *)
Theorem stores_are_independent heap ops heap' :
  execAll heap ops = Returns heap' →
  (Forall (λ o, storeOf o ≠ ObjectStore) ops → objectContainer heap' = objectContainer heap) ∧
  (Forall (λ o, storeOf o ≠ ArrayStore) ops → arrayContainer heap' = arrayContainer heap) ∧
  (Forall (λ o, storeOf o ≠ MonitorStore) ops → monitorContainer heap' = monitorContainer heap).
Proof.
  revert heap. induction ops as [|o ops IH]; intros heap.
  - cbn. by intros [= <-].
  - cbn. destruct (exec heap o) as [heap1| |] eqn:Hexec; cbn; try done.
    intros Hrest. destruct (IH _ Hrest) as (IHo & IHa & IHm).
    destruct (exec_other_stores _ _ _ Hexec) as (Ho & Ha & Hm).
    split_and!; intros [Hhead Htail]%Forall_cons.
    + by rewrite IHo, Ho.
    + by rewrite IHa, Ha.
    + by rewrite IHm, Hm.
Qed.

Lemma exec_shape heap o heap' :
  exec heap o = Returns heap' →
  (∀ h fields', objectContainer heap' !! h = Some fields' →
     ∃ fields, objectContainer heap !! h = Some fields ∧ length fields' = length fields) ∧
  (∀ h record', arrayContainer heap' !! h = Some record' →
     ∃ record, arrayContainer heap !! h = Some record ∧
               record'.1 = record.1 ∧ length record'.2 = length record.2).
Proof.
  intros Hexec. destruct o as [object i v|array i v|offset|offset|monitor|offset];
    cbn in Hexec.
  - rewrite putFieldByOffset_unfold in Hexec.
    destruct (objectContainer heap !! JObject.offset object) as [fields|] eqn:Hlive; [|done].
    case_decide; [|done]. injection Hexec as <-. cbn. split; [|eauto].
    intros h fields'. rewrite lookup_insert_Some.
    intros [[<- <-]|[_ Hh]]; [|eauto].
    exists fields. by rewrite length_insert.
  - rewrite putElement_unfold in Hexec.
    destruct (arrayContainer heap !! JArray.offset array) as [record|] eqn:Hlive; [|done].
    case_decide; [|done]. injection Hexec as <-. cbn. split; [eauto|].
    intros h record'. rewrite lookup_insert_Some.
    intros [[<- <-]|[_ Hh]]; [|eauto].
    exists record. cbn. by rewrite length_insert.
  - injection Hexec as <-. cbn. split; [eauto|].
    intros h record'. rewrite remove_delete, lookup_delete_Some. intros [_ Hh]. eauto.
  - injection Hexec as <-. cbn. split; [|eauto].
    intros h fields'. rewrite remove_delete, lookup_delete_Some. intros [_ Hh]. eauto.
  - injection Hexec as <-. cbn. split; eauto 10.
  - injection Hexec as <-. cbn. split; eauto 10.
Qed.

(** X15: no operation whose body the header gives creates an object or
    array record or changes the shape of one: after any sequence of them,
    every live object record was live before with the same slot count, and
    every live array record was live before with the same element count and
    buffer length. *)
Theorem record_shape_is_fixed heap ops heap' :
  execAll heap ops = Returns heap' →
  (∀ h fields', objectContainer heap' !! h = Some fields' →
     ∃ fields, objectContainer heap !! h = Some fields ∧ length fields' = length fields) ∧
  (∀ h record', arrayContainer heap' !! h = Some record' →
     ∃ record, arrayContainer heap !! h = Some record ∧
               record'.1 = record.1 ∧ length record'.2 = length record.2).
Proof.
  revert heap. induction ops as [|o ops IH]; intros heap.
  - cbn. intros [= <-]. split; eauto 10.
  - cbn. destruct (exec heap o) as [heap1| |] eqn:Hexec; cbn; try done.
    intros Hrest. destruct (IH _ Hrest) as (IHo & IHa).
    destruct (exec_shape _ _ _ Hexec) as (Ho & Ha). split.
    + intros h fields' (fields1 & H1 & Hlen1)%IHo.
      destruct (Ho _ _ H1) as (fields & H0 & Hlen0). exists fields. split; [done|congruence].
    + intros h record' (record1 & H1 & Hc1 & Hlen1)%IHa.
      destruct (Ha _ _ H1) as (record & H0 & Hc0 & Hlen0).
      exists record. split_and!; [done|congruence..].
Qed.
End facade_sequences.

Lemma stores_are_independent_witness :
  let heap := {| objectContainer := {[1 := [10; 11]]};
                 arrayContainer := {[1 := (1, [20])]};
                 monitorContainer := {[1 := 30]} |} in
  let object := {| JObject.jc := RootClass "A" []; JObject.offset := 1 |} in
  let ops := [PutFieldByOffset object 0 7; RemoveObject 1] in
  execAll heap ops = Returns (removeObject heap 1) ∧
  arrayContainer (removeObject heap 1) = arrayContainer heap ∧
  monitorContainer (removeObject heap 1) = monitorContainer heap.
Proof.
  cbn zeta.
  pose proof (stores_are_independent
    {| objectContainer := {[1 := [10; 11]]};
       arrayContainer := {[1 := (1, [20])]};
       monitorContainer := {[1 := 30]} |}
    [PutFieldByOffset {| JObject.jc := RootClass "A" []; JObject.offset := 1 |} 0 7;
     RemoveObject 1]
    _ eq_refl) as (_ & Ha & Hm).
  split; [by vm_compute|]. split.
  - apply Ha. repeat constructor; discriminate.
  - apply Hm. repeat constructor; discriminate.
Defined.

Lemma record_shape_is_fixed_witness :
  let heap := {| objectContainer := {[1 := [10; 11]; 2 := [12]]};
                 arrayContainer := {[1 := (1, [20])]};
                 monitorContainer := ∅ |} in
  let object := {| JObject.jc := RootClass "A" []; JObject.offset := 1 |} in
  let ops := [PutFieldByOffset object 0 7; RemoveObject 2; CreateMonitor 9] in
  ∃ heap', execAll heap ops = Returns heap' ∧
    ∀ h fields', objectContainer heap' !! h = Some fields' →
      ∃ fields, objectContainer heap !! h = Some fields ∧ length fields' = length fields.
Proof.
  cbn zeta. eexists. split; [reflexivity|].
  apply (record_shape_is_fixed
    {| objectContainer := {[1 := [10; 11]; 2 := [12]]};
       arrayContainer := {[1 := (1, [20])]};
       monitorContainer := ∅ |}
    [PutFieldByOffset {| JObject.jc := RootClass "A" []; JObject.offset := 1 |} 0 7;
     RemoveObject 2; CreateMonitor 9]).
  reflexivity.
Defined.

(** * Teardown *)

Section teardown_facts.
Implicit Types (ptrs : list JTypePtr) (cells : gset N).

Lemma delete_each_app ptrs1 ptrs2 cells :
  delete_each (ptrs1 ++ ptrs2) cells = (delete_each ptrs1 cells ≫= delete_each ptrs2).
Proof.
  revert cells. induction ptrs1 as [|ptr ptrs1 IH]; intros cells; cbn; [done|].
  destruct (delete_checked cells ptr) as [cells1| |]; cbn; [apply IH|done..].
Qed.

Lemma delete_each_never_throws ptrs cells e : delete_each ptrs cells ≠ Throws e.
Proof.
  revert cells. induction ptrs as [|ptr ptrs IH]; intros cells; cbn; [done|].
  unfold delete_checked. repeat case_decide; cbn; done || apply IH.
Qed.

Lemma delete_each_Returns ptrs cells cells' :
  delete_each ptrs cells = Returns cells' ↔
  NoDup (nonNull ptrs) ∧
  (∀ p, p ∈ nonNull ptrs → p ∈ cells) ∧
  cells' = cells ∖ list_to_set (nonNull ptrs).
Proof.
  revert cells. unfold nonNull.
  induction ptrs as [|ptr ptrs IH]; intros cells; cbn [delete_each].
  - cbn. split.
    + intros [= <-]. split_and!; [constructor|by intros p ?%elem_of_nil|set_solver].
    + intros (_ & _ & ->). f_equal. set_solver.
  - unfold delete_checked. destruct (decide (ptr = nullptr)) as [Hnull|Hnn].
    + rewrite filter_cons_False by (by intros ?). apply IH.
    + rewrite filter_cons_True by done.
      destruct (decide (ptr ∈ cells)) as [Hin|Hout].
      * change (delete_each ptrs (cells ∖ {[ptr]}) = Returns cells' ↔
          NoDup (ptr :: filter (λ ptr, ptr ≠ nullptr) ptrs) ∧
          (∀ p, p ∈ ptr :: filter (λ ptr, ptr ≠ nullptr) ptrs → p ∈ cells) ∧
          cells' = cells ∖ list_to_set (ptr :: filter (λ ptr, ptr ≠ nullptr) ptrs)).
        rewrite IH, NoDup_cons. split.
        -- intros (Hnd & Hall & ->). split_and!.
           ++ intros Hp%Hall. set_solver.
           ++ done.
           ++ intros p [->|Hp%Hall]%elem_of_cons; set_solver.
           ++ cbn. set_solver.
        -- intros ([Hfresh Hnd] & Hall & ->). split_and!; [done| |cbn; set_solver].
           intros p Hp. apply elem_of_difference. split; [apply Hall; set_solver|].
           intros ->%elem_of_singleton. done.
      * split; [done|]. intros (_ & Hall & _). destruct Hout. apply Hall. set_solver.
Qed.

Lemma destroy_each_objects (records : list (N * InternalObject)) cells :
  destroy_each delete_each records cells = delete_each (mjoin records.*2) cells.
Proof.
  revert cells. induction records as [|record records IH]; intros cells; cbn; [done|].
  rewrite delete_each_app.
  destruct (delete_each record.2 cells); cbn; [apply IH|done..].
Qed.

Lemma elem_of_entries {Type_ : Type} (data : gmap N Type_) h (record : Type_) :
  (h, record) ∈ entries data ↔ data !! h = Some record.
Proof.
  unfold entries. rewrite merge_sort_Permutation. apply elem_of_map_to_list.
Qed.

Lemma elem_of_slotPointers (data : gmap N InternalObject) (p : JTypePtr) :
  p ∈ slotPointers data ↔ ∃ h record, data !! h = Some record ∧ p ∈ record.
Proof.
  unfold slotPointers. rewrite list_elem_of_join. split.
  - intros (record & Hp & ([h record'] & -> & Hin)%list_elem_of_fmap).
    apply elem_of_entries in Hin. eauto.
  - intros (h & record & Hlive%elem_of_entries & Hp).
    exists record. split; [done|].
    apply list_elem_of_fmap. by exists (h, record).
Qed.
End teardown_facts.

(** X16: [~ObjectContainer] hands to [delete] exactly the slot values of the
    live records.  It completes exactly when every non-null slot value is an
    allocated cell and no non-null pointer is held by two slots, and then it
    releases these cells and no other; otherwise (a pointer shared by two
    slots, or a slot value that is no longer allocated) a cell is deleted
    that is not allocated, which is undefined.  It raises no error. *)
Theorem teardown_releases_each_slot_value_once (data : gmap N InternalObject)
    (cells : gset N) :
  (∀ p, p ∈ slotPointers data ↔ ∃ h record, data !! h = Some record ∧ p ∈ record) ∧
  (∀ cells', ObjectContainer_teardown data cells = Returns cells' ↔
     NoDup (nonNull (slotPointers data)) ∧
     (∀ p, p ∈ nonNull (slotPointers data) → p ∈ cells) ∧
     cells' = cells ∖ list_to_set (nonNull (slotPointers data))) ∧
  (∀ e, ObjectContainer_teardown data cells ≠ Throws e).
Proof.
  unfold ObjectContainer_teardown. rewrite destroy_each_objects.
  fold (slotPointers data). split_and!.
  - apply elem_of_slotPointers.
  - intros cells'. apply delete_each_Returns.
  - intros e. apply delete_each_never_throws.
Qed.

(** Two slots holding the same pointer: teardown deletes the cell twice. *)
Example teardown_shared_pointer :
  ObjectContainer_teardown {[1 := [7]; 2 := [7]]} {[7]} = Undefined ∧
  ObjectContainer_teardown {[1 := [7]; 2 := [0; 8]]} {[7; 8; 9]} = Returns {[9]}.
Proof. split; by vm_compute. Qed.

Section teardown_arrays.
Implicit Types (cells : gset N).

Lemma destroy_each_cons {Type_ : Type} (release : Type_ → gset N → outcome (gset N))
    (entry : N * Type_) (records : list (N * Type_)) cells :
  destroy_each release (entry :: records) cells =
    (release entry.2 cells ≫= destroy_each release records).
Proof. done. Qed.

Lemma InternalArray_release_wf (record : InternalArray) cells :
  record.1 ≤ N.of_nat (length record.2) →
  InternalArray_release record cells = delete_each (take (N.to_nat record.1) record.2) cells.
Proof. intros Hwf. unfold InternalArray_release. by rewrite decide_True. Qed.

Lemma InternalArray_release_Returns (record : InternalArray) cells cells' :
  InternalArray_release record cells = Returns cells' →
  record.1 ≤ N.of_nat (length record.2).
Proof. unfold InternalArray_release. by case_decide. Qed.

Lemma InternalArray_release_never_throws (record : InternalArray) cells e :
  InternalArray_release record cells ≠ Throws e.
Proof.
  unfold InternalArray_release. case_decide; [|done]. apply delete_each_never_throws.
Qed.

Lemma destroy_each_arrays (records : list (N * InternalArray)) cells :
  Forall (λ entry, entry.2.1 ≤ N.of_nat (length entry.2.2)) records →
  destroy_each InternalArray_release records cells =
    delete_each (mjoin ((λ entry, take (N.to_nat entry.2.1) entry.2.2) <$> records)) cells.
Proof.
  intros Hwf. revert cells. induction Hwf as [|entry records Hentry _ IH]; intros cells; [done|].
  rewrite destroy_each_cons, fmap_cons.
  change (mjoin (?l :: ?ls)) with (l ++ mjoin ls).
  rewrite delete_each_app, InternalArray_release_wf by done.
  destruct (delete_each _ cells); cbn; [apply IH|done..].
Qed.

Lemma destroy_each_arrays_wf (records : list (N * InternalArray)) cells cells' :
  destroy_each InternalArray_release records cells = Returns cells' →
  Forall (λ entry, entry.2.1 ≤ N.of_nat (length entry.2.2)) records.
Proof.
  revert cells. induction records as [|entry records IH]; intros cells; [by constructor|].
  rewrite destroy_each_cons.
  destruct (InternalArray_release entry.2 cells) as [cells1| |] eqn:Hrel; cbn; [|done..].
  intros Hrest. constructor; [by eapply InternalArray_release_Returns|by eapply IH].
Qed.

Lemma destroy_each_arrays_never_throws (records : list (N * InternalArray)) cells e :
  destroy_each InternalArray_release records cells ≠ Throws e.
Proof.
  revert cells. induction records as [|entry records IH]; intros cells; [done|].
  rewrite destroy_each_cons.
  destruct (InternalArray_release entry.2 cells) as [cells1| |] eqn:Hrel; cbn; [apply IH| |done].
  by apply InternalArray_release_never_throws in Hrel.
Qed.

Lemma destroy_each_monitors (records : list (N * InternalMonitor)) cells :
  destroy_each (λ monitor cells, delete_checked cells monitor) records cells =
    delete_each records.*2 cells.
Proof.
  revert cells. induction records as [|entry records IH]; intros cells; cbn; [done|].
  destruct (delete_checked cells entry.2); cbn; [apply IH|done..].
Qed.
End teardown_arrays.

(** X17: [~ArrayContainer] completes exactly when no record's element count
    exceeds the length of its buffer, every non-null pointer among the
    counted elements is an allocated cell, and no such pointer is counted
    twice; it then releases these cells and no other, so an element stored
    past the count stays allocated.  Otherwise it is undefined.  It raises
    no error. *)
Theorem array_teardown_releases_counted_elements (data : gmap N InternalArray)
    (cells : gset N) :
  (∀ cells', ArrayContainer_teardown data cells = Returns cells' ↔
     (∀ h record, data !! h = Some record → record.1 ≤ N.of_nat (length record.2)) ∧
     NoDup (nonNull (elementPointers data)) ∧
     (∀ p, p ∈ nonNull (elementPointers data) → p ∈ cells) ∧
     cells' = cells ∖ list_to_set (nonNull (elementPointers data))) ∧
  (∀ e, ArrayContainer_teardown data cells ≠ Throws e).
Proof.
  unfold ArrayContainer_teardown, elementPointers. split.
  - intros cells'.
    assert ((∀ h record, data !! h = Some record → record.1 ≤ N.of_nat (length record.2)) ↔
            Forall (λ entry, entry.2.1 ≤ N.of_nat (length entry.2.2)) (entries data)) as Hwf.
    { rewrite Forall_forall. split.
      - intros Hall [h record] Hin%elem_of_entries. by apply (Hall h).
      - intros Hall h record Hlive%elem_of_entries. by apply (Hall (h, record)). }
    rewrite Hwf. split.
    + intros Hret. pose proof (destroy_each_arrays_wf _ _ _ Hret) as Hall.
      split; [done|]. rewrite destroy_each_arrays in Hret by done.
      by apply delete_each_Returns.
    + intros (Hall & Hrest). rewrite destroy_each_arrays by done.
      by apply delete_each_Returns.
  - intros e. apply destroy_each_arrays_never_throws.
Qed.

(** X18: [~MonitorContainer] completes exactly when every non-null monitor
    pointer of the store is an allocated cell and no monitor is stored under
    two handles; it then releases these monitors and no other cell.
    Otherwise it is undefined.  It raises no error. *)
Theorem monitor_teardown_releases_each_monitor_once (data : gmap N InternalMonitor)
    (cells : gset N) :
  (∀ m, m ∈ monitorPointers data ↔ ∃ h, data !! h = Some m) ∧
  (∀ cells', MonitorContainer_teardown data cells = Returns cells' ↔
     NoDup (nonNull (monitorPointers data)) ∧
     (∀ p, p ∈ nonNull (monitorPointers data) → p ∈ cells) ∧
     cells' = cells ∖ list_to_set (nonNull (monitorPointers data))) ∧
  (∀ e, MonitorContainer_teardown data cells ≠ Throws e).
Proof.
  unfold MonitorContainer_teardown, monitorPointers.
  rewrite destroy_each_monitors. split_and!.
  - intros m. rewrite list_elem_of_fmap. split.
    + intros ([h m'] & -> & Hin%elem_of_entries). eauto.
    + intros [h Hlive%elem_of_entries]. by exists (h, m).
  - intros cells'. apply delete_each_Returns.
  - intros e. apply delete_each_never_throws.
Qed.

Example array_teardown_count :
  ArrayContainer_teardown {[1 := (1, [7; 8])]} {[7; 8]} = Returns {[8]} ∧
  ArrayContainer_teardown {[1 := (3, [7; 8])]} {[7; 8]} = Undefined ∧
  ArrayContainer_teardown {[1 := (0, [])]} {[7]} = Returns {[7]}.
Proof. split_and!; by vm_compute. Qed.

Lemma use_after_remove_undefined_witness :
  let heap := {| objectContainer := {[1 := [10; 11]; 2 := [12]]};
                 arrayContainer := {[1 := (1, [20])]};
                 monitorContainer := ∅ |} in
  let object := {| JObject.jc := RootClass "A" []; JObject.offset := 1 |} in
  JObject.offset object = 1 ∧
  getFieldByOffset (removeObject heap 1) object 0 = Undefined ∧
  putFieldByOffset (removeObject heap 1) object 0 7 = Undefined ∧
  getFields (removeObject heap 1) object = Undefined.
Proof.
  cbn zeta. split; [reflexivity|].
  apply (proj1 (proj1 (use_after_remove_undefined
    {| objectContainer := {[1 := [10; 11]; 2 := [12]]};
       arrayContainer := {[1 := (1, [20])]};
       monitorContainer := ∅ |} 1))
    {| JObject.jc := RootClass "A" []; JObject.offset := 1 |} 0 7).
  reflexivity.
Defined.

(** X19: the record that [Container::place] has just allocated is
    value-initialised: an object record has no slot and an array record is
    [(0, nullptr)], so until the creator fills it every access to it by
    offset is undefined, whatever the index. *)
Theorem fresh_record_has_no_slots (heap : JavaHeap) :
  (Container.lastOffset (objectContainer heap) < SIZE_MAX →
   let r := ObjectContainer.place (objectContainer heap) in
   let heap' := set_objectContainer heap r.2 in
   ∀ (object : JObject.t) (i : N) (value : JTypePtr),
     JObject.offset object = r.1 →
     getFields heap' object = Returns [] ∧
     getFieldByOffset heap' object i = Undefined ∧
     putFieldByOffset heap' object i value = Undefined) ∧
  (Container.lastOffset (arrayContainer heap) < SIZE_MAX →
   let r := ArrayContainer.place (arrayContainer heap) in
   let heap' := set_arrayContainer heap r.2 in
   ∀ (array : JArray.t) (i : N) (value : JTypePtr),
     JArray.offset array = r.1 →
     getElements heap' array = Returns (0, []) ∧
     getElement heap' array i = Undefined ∧
     putElement heap' array i value = Undefined).
Proof.
  split; intros Hlt; cbn zeta.
  - destruct (place_next ([] : InternalObject) (objectContainer heap) Hlt)
      as (_ & _ & _ & _ & Hnew & _).
    intros object i value Hoff.
    rewrite getFieldByOffset_unfold, putFieldByOffset_unfold.
    unfold getFields, Container.find.
    cbn [objectContainer set_objectContainer]. rewrite Hoff.
    unfold ObjectContainer.place. rewrite Hnew.
    rewrite lookup_nil. rewrite decide_False by (cbn; lia). done.
  - destruct (place_next ((0, []) : InternalArray) (arrayContainer heap) Hlt)
      as (_ & _ & _ & _ & Hnew & _).
    intros array i value Hoff.
    rewrite getElement_unfold, putElement_unfold.
    unfold getElements, Container.find.
    cbn [arrayContainer set_arrayContainer]. rewrite Hoff.
    unfold ArrayContainer.place. rewrite Hnew. cbn [snd].
    rewrite lookup_nil. rewrite decide_False by (cbn; lia). done.
Qed.

Lemma fresh_record_has_no_slots_witness :
  let heap := {| objectContainer := {[1 := [10; 11]]};
                 arrayContainer := ∅;
                 monitorContainer := ∅ |} in
  let object := {| JObject.jc := RootClass "A" []; JObject.offset := 2 |} in
  let heap' := set_objectContainer heap (ObjectContainer.place (objectContainer heap)).2 in
  Container.lastOffset (objectContainer heap) < SIZE_MAX ∧
  JObject.offset object = (ObjectContainer.place (objectContainer heap)).1 ∧
  getFields heap' object = Returns [] ∧
  getFieldByOffset heap' object 0 = Undefined ∧
  putFieldByOffset heap' object 0 7 = Undefined.
Proof.
  cbn zeta. split; [by vm_compute|]. split; [by vm_compute|].
  apply (proj1 (fresh_record_has_no_slots
    {| objectContainer := {[1 := [10; 11]]};
       arrayContainer := ∅;
       monitorContainer := ∅ |})).
  - by vm_compute.
  - by vm_compute.
Defined.
